(** * Translation checks of [update_language_files.py]

    A shallow embedding of the two validation passes of the helper script:
    [check_syntax_of_po_files] (placeholders in translated strings) and
    [check_shortcuts] (keyboard shortcut letters inside shortcut groups),
    together with [get_shortcut_entries] and [get_shortcut_groups].

    Python strings are sequences of Unicode code points and are modelled as
    lists of [N]; [print] is modelled by a state monad over the text written
    to standard output, with exceptions. *)

From stdpp Require Import prelude strings sorting gmap.

Open Scope N_scope.

(** ** Strings *)

Abbreviation str := (list N).

(** A string literal of the source (ASCII only). *)
Definition py (s : string) : str :=
  Ascii.N_of_ascii <$> String.list_ascii_of_string s.

Definition lbrace : N := 123.
Definition rbrace : N := 125.
Definition newline : N := 10.
Definition amp : N := 38.

(** [s.count(c)] for a one-character [c]. *)
Definition str_count (c : N) (s : str) : nat :=
  length (filter (λ x, x = c) s).

(** Python's order on [str]: lexicographic on code points. *)
Fixpoint str_le (a b : str) : bool :=
  match a, b with
  | [], _ => true
  | _ :: _, [] => false
  | x :: a', y :: b' =>
      if (x <? y) then true else if (x =? y) then str_le a' b' else false
  end.

Definition str_lexle : relation str := λ a b, str_le a b = true.

Global Instance str_lexle_dec : RelDecision str_lexle :=
  λ a b, decide (str_le a b = true).

(** [sorted(l)] on a list of strings. *)
Definition sorted (l : list str) : list str := merge_sort str_lexle l.

(** ** Output and exceptions *)

Inductive message :=
  (* print('Checking syntax of po files...') *)
  | MsgCheckingSyntax
  (* print(f'{po_path.with_suffix("").name}', end=' ') *)
  | MsgLanguage (po_path : str)
  (* print(f'\nERROR: Curly brackets nested: {to_check}') *)
  | ErrCurlyNested (to_check : str)
  (* print(f'\nERROR: Curly brackets not balanced : {to_check}') *)
  | ErrCurlyNotBalanced (to_check : str)
  (* print(f'\nERROR: {exc} in translation: {to_check}') *)
  | ErrOther (exc : str) (to_check : str)
  (* print(f'\nERROR: Number of "{bracket}" between original source and
     translated string is different. ...') *)
  | ErrBracketNumber (bracket : N) (trans_string : str)
  (* print('\nERROR: Names of placeholders between original source and
     translated string are different. ...') *)
  | ErrNames (org_names trans_names : list str) (trans_string : str)
  (* print(f'Source string: {entry.msgid}\n') *)
  | MsgSourceString (msgid : str)
  (* print('') *)
  | MsgEmpty
  (* print(f'******* {po_path} *******') *)
  | MsgPoPath (po_path : str)
  (* print(err_msg) of check_shortcuts; [maybe_missing] tells whether
     ' Maybe missing ones.' was added *)
  | ErrShortcuts (po_path : str) (maybe_missing : bool) (groupname : str)
      (source translation : list str).

Global Instance message_eq_dec : EqDecision message.
Proof. solve_decision. Defined.

Inductive exn :=
  (* raise ValueError(...) of get_shortcut_groups *)
  | ValueError (expected real : list str)
  (* d[key] on a key that is absent *)
  | KeyError (key : str)
  (* polib.pofile(po_path) on a file that it cannot read or parse *)
  | PofileError (po_path : str).

Global Instance exn_eq_dec : EqDecision exn.
Proof. solve_decision. Defined.

(** A computation that prints and may raise. *)
Definition prog (A : Type) : Type := list message → (exn + A) * list message.

Definition ret {A} (a : A) : prog A := λ out, (inr a, out).

Definition bind {A B} (m : prog A) (k : A → prog B) : prog B :=
  λ out, match m out with
         | (inl e, out') => (inl e, out')
         | (inr a, out') => k a out'
         end.

Definition print (m : message) : prog () := λ out, (inr (), out ++ [m]).

Definition raise {A} (e : exn) : prog A := λ out, (inl e, out).

Notation "x <- m ;; k" := (bind m (λ x, k))
  (at level 100, m at next level, right associativity).
Notation "m ;; k" := (bind m (λ _, k))
  (at level 100, right associativity).

(** [for x in l: s = body(s, x)] *)
Fixpoint for_loop {A S} (l : list A) (body : S → A → prog S) (s : S) : prog S :=
  match l with
  | [] => ret s
  | x :: l' => s' <- body s x ;; for_loop l' body s'
  end.

Definition for_each {A} (l : list A) (body : A → prog ()) : prog () :=
  for_loop l (λ _ x, body x) ().

(** ** The regular expressions *)

(** [rex_reduce = re.compile(r'[^\{\}]')]; [rex_reduce.sub('', s)] deletes
    every character that is no curly bracket. *)
Definition rex_reduce_sub (s : str) : str :=
  filter (λ c, c = lbrace ∨ c = rbrace) s.

(** [rex_curly_pair = re.compile(r'\{\}')]; [rex_curly_pair.sub('', s)]
    deletes the matches found scanning from the left, without overlap. *)
Fixpoint rex_curly_pair_sub (s : str) : str :=
  match s with
  | [] => []
  | a :: r =>
      match r with
      | b :: t =>
          if bool_decide (a = lbrace ∧ b = rbrace)
          then rex_curly_pair_sub t
          else a :: rex_curly_pair_sub r
      | [] => [a]
      end
  end.

(** [rex_curly_pair.findall(s)]: the matches, from the left, without
    overlap. *)
Fixpoint rex_curly_pair_findall (s : str) : list str :=
  match s with
  | [] => []
  | a :: r =>
      match r with
      | b :: t =>
          if bool_decide (a = lbrace ∧ b = rbrace)
          then [a; b] :: rex_curly_pair_findall t
          else rex_curly_pair_findall r
      | [] => []
      end
  end.

(** [rex_names = re.compile(r'\{(.*?)\}')]; [rex_names.findall(s)] gives the
    text of group 1 of every match.  A match opens at a '{' and closes at the
    first '}' after it; '.' matches no newline, so a newline before that
    '}' makes the attempt fail, as it does for every '{' in between, and the
    search goes on after the newline.  [cur] is the text read since the
    '{' of the attempt, [None] outside of an attempt. *)
Fixpoint rex_names_scan (cur : option str) (s : str) : list str :=
  match s with
  | [] => []
  | c :: t =>
      match cur with
      | None =>
          if bool_decide (c = lbrace) then rex_names_scan (Some []) t
          else rex_names_scan None t
      | Some name =>
          if bool_decide (c = rbrace) then name :: rex_names_scan None t
          else if bool_decide (c = newline) then rex_names_scan None t
          else rex_names_scan (Some (name ++ [c])) t
      end
  end.

Definition rex_names_findall (s : str) : list str := rex_names_scan None s.

(** ** check_syntax_of_po_files *)

Definition _curly_brackets_balanced (to_check : str) : prog bool :=
  let reduced := rex_reduce_sub to_check in
  let invalid := rex_curly_pair_sub reduced in
  if bool_decide (rex_curly_pair_findall invalid ≠ []) then
    print (ErrCurlyNested to_check) ;;
    ret false
  else if bool_decide (invalid ≠ []) then
    print (ErrCurlyNotBalanced to_check) ;;
    ret false
  else
    ret true.

(** [a or b] and [not a] on conditions that print. *)
Definition por (a b : prog bool) : prog bool :=
  x <- a ;; if x then ret true else b.

Definition pnot (a : prog bool) : prog bool :=
  x <- a ;; ret (negb x).

(** ** Entries of a po file *)

(** The fields of [polib.POEntry] that the checks read.  [msgstr_plural] is
    a dict from plural index to text; [obsolete] is 0/False or 1/True. *)
Record POEntry := {
  msgid : str;
  msgstr : str;
  msgid_plural : str;
  msgstr_plural : list (N * str);
  flags : list str;
  obsolete : bool
}.

Abbreviation POFile := (list POEntry).

(** [entry.msgstr_plural or entry.msgid_plural], as a condition. *)
Definition has_plural (entry : POEntry) : bool :=
  bool_decide (msgstr_plural entry ≠ []) || bool_decide (msgid_plural entry ≠ []).

(** ** Dictionaries from group names to lists of strings, in insertion
    order *)

Abbreviation dict := (list (str * list str)).

Definition dict_keys (d : dict) : list str := d.*1.

Fixpoint dict_lookup (d : dict) (key : str) : option (list str) :=
  match d with
  | [] => None
  | (k, v) :: d' => if decide (k = key) then Some v else dict_lookup d' key
  end.

(** [d[key]] *)
Definition getitem (d : dict) (key : str) : prog (list str) :=
  match dict_lookup d key with
  | Some v => ret v
  | None => raise (KeyError key)
  end.

(** The dictionary after [d[key].append(x)]. *)
Fixpoint dict_append (d : dict) (key : str) (x : str) : dict :=
  match d with
  | [] => []
  | (k, v) :: d' =>
      if decide (k = key) then (k, v ++ [x]) :: d'
      else (k, v) :: dict_append d' key x
  end.

Definition ignore_placeholder_compare : str := py "ignore-placeholder-compare".

Section checks.

(** [string.Formatter().parse(format_string=s)] of the standard library,
    run to its end: [None] when it parses, [Some exc] with the text of the
    exception when it raises. *)
Variable formatter_parse : str → option str.

(** [POEntry.translated()] of polib, which [translated_entries()]
    filters with. *)
Variable translated : POEntry → bool.

(** The class [\w] of [re] on [str] patterns: Unicode word characters. *)
Variable is_word : N → bool.

Definition _other_errors (to_check : str) : prog bool :=
  match formatter_parse to_check with
  | Some exc =>
      print (ErrOther exc to_check) ;;
      ret false
  | None => ret true
  end.

(** The loop [for bracket in tuple('{}')] of [_place_holders]; [false]
    when it left the function with [return False]. *)
Fixpoint compare_bracket_numbers (brackets : list N)
    (trans_string src_string : str) : prog bool :=
  match brackets with
  | [] => ret true
  | bracket :: rest =>
      if bool_decide (str_count bracket src_string
                      ≠ str_count bracket trans_string) then
        print (ErrBracketNumber bracket trans_string) ;;
        ret false
      else compare_bracket_numbers rest trans_string src_string
  end.

Definition _place_holders (trans_string src_string : str)
    (flags : list str) : prog bool :=
  if bool_decide (ignore_placeholder_compare ∈ flags) then ret true
  else
    same <- compare_bracket_numbers [lbrace; rbrace] trans_string src_string ;;
    if negb same then ret false
    else
      let org_names := rex_names_findall src_string in
      let trans_names := rex_names_findall trans_string in
      if bool_decide (sorted org_names ≠ sorted trans_names) then
        print (ErrNames org_names trans_names trans_string) ;;
        ret false
      else ret true.

(** The body of [for entry in pof.translated_entries()]. *)
Definition check_syntax_of_entry (entry : POEntry) : prog () :=
  if has_plural entry then ret ()
  else
    failed <- por (pnot (_curly_brackets_balanced (msgstr entry)))
               (por (pnot (_other_errors (msgstr entry)))
                    (pnot (_place_holders (msgstr entry) (msgid entry)
                                          (flags entry)))) ;;
    if failed then print (MsgSourceString (msgid entry)) else ret ().

Definition translated_entries (pof : POFile) : list POEntry :=
  filter (λ e, translated e = true) pof.

(** [po_files] is what [all_po_files_in_local_dir()] and [polib.pofile]
    give: the paths in the order of [rglob], each with its entries. *)
Definition check_syntax_of_po_files (po_files : list (str * POFile))
    : prog () :=
  print MsgCheckingSyntax ;;
  for_each po_files (λ '(po_path, pof),
    print (MsgLanguage po_path) ;;
    for_each (translated_entries pof) check_syntax_of_entry) ;;
  print MsgEmpty.

(** ** Shortcuts *)

(** [REX_SHORTCUT_LETTER = re.compile(r'&(\w)')];
    [REX_SHORTCUT_LETTER.search(s)], reduced to group 1 of the match. *)
Fixpoint rex_shortcut_letter_search (s : str) : option N :=
  match s with
  | [] => None
  | a :: r =>
      match r with
      | b :: _ =>
          if bool_decide (a = amp) && is_word b then Some b
          else rex_shortcut_letter_search r
      | [] => None
      end
  end.

Definition get_shortcut_entries (po_file : POFile) : list POEntry :=
  filter (λ entry, obsolete entry = false
                   ∧ is_Some (rex_shortcut_letter_search (msgid entry)))
         po_file.

Definition expect : list str :=
  [ py "&Backup"; py "&Restore"; py "&Help";
    py "&General"; py "&Include"; py "&Exclude"; py "&Auto-remove";
    py "&Options"; py "Back In &Time"; py "E&xpert Options" ].

(** [template] is [polib.pofile(TEMPLATE_PO)]. *)
Definition get_shortcut_groups (template : POFile) : prog dict :=
  let real := get_shortcut_entries template in
  let real := msgid <$> real in
  if bool_decide (sorted real ≠ sorted expect) then
    raise (ValueError (sorted expect) (sorted real))
  else
    let expect := [py "Back In &Time"] ++ expect in
    ret [ (py "mainwindow", take 4 expect);
          (py "manageprofile", drop 4 expect) ].

(** The loop [for trans in real[groupname]] that collects the letters. *)
Definition collect_letters (translations : list str) : str :=
  foldl (λ letters trans,
           match rex_shortcut_letter_search trans with
           | Some letter => letters ++ [letter]
           | None => letters
           end) [] translations.

(** The body of [for groupname in real] that reports a group. *)
Definition check_shortcut_group (groups real : dict) (po_path : str)
    (groupname : str) : prog () :=
  translations <- getitem real groupname ;;
  let letters := collect_letters translations in
  if bool_decide (size (list_to_set (C:=gset N) letters) < length letters)%nat
  then
    source <- getitem groups groupname ;;
    print (ErrShortcuts po_path
             (bool_decide (length letters < length translations)%nat)
             groupname source translations)
  else ret ().

(** The loops that sort the entries of a po file into [real]. *)
Definition group_entries (groups real : dict)
    (shortcut_entries : list POEntry) : prog dict :=
  for_loop shortcut_entries (λ real entry,
    for_loop (dict_keys real) (λ real groupname,
      members <- getitem groups groupname ;;
      if bool_decide (msgid entry ∈ members) then
        _ <- getitem real groupname ;;
        ret (dict_append real groupname (msgstr entry))
      else ret real) real) real.

(** The body of [for po_path in list(LOCAL_DIR.rglob('**/*.po'))]. *)
Definition check_shortcuts_of_po_file (groups : dict) (po_path : str)
    (pof : POFile) : prog () :=
  print (MsgPoPath po_path) ;;
  let real := (λ key, (key, [])) <$> dict_keys groups in
  let shortcut_entries := get_shortcut_entries pof in
  real <- group_entries groups real shortcut_entries ;;
  for_each (dict_keys real) (check_shortcut_group groups real po_path).

Definition check_shortcuts (template : POFile)
    (po_files : list (str * POFile)) : prog () :=
  groups <- get_shortcut_groups template ;;
  for_each po_files (λ '(po_path, pof),
    check_shortcuts_of_po_file groups po_path pof).

End checks.

(** ** Vocabulary of the statements *)

(** The members registered for a group, none for an unknown group. *)
Definition members_of (groups : dict) (groupname : str) : list str :=
  default [] (dict_lookup groups groupname).

(** The translated strings of a po file that belong to a group: those of
    the shortcut entries whose source string is a member, in file order. *)
Definition group_translations (is_word : N → bool) (members : list str)
    (pof : POFile) : list str :=
  msgstr <$> filter (λ e, msgid e ∈ members) (get_shortcut_entries is_word pof).

(** The string has a shortcut marker at index [i]: a '&' there and a word
    character next. *)
Definition marker_at (is_word : N → bool) (s : str) (i : nat) : Prop :=
  s !! i = Some amp ∧ ∃ c, s !! S i = Some c ∧ is_word c = true.

(** The entry with its plural forms emptied. *)
Definition without_plural (e : POEntry) : POEntry :=
  {| msgid := msgid e; msgstr := msgstr e; msgid_plural := [];
     msgstr_plural := []; flags := flags e; obsolete := obsolete e |}.

Definition without_plurals (pof : POFile) : POFile := without_plural <$> pof.

(** [n] pairs of curly brackets in a row. *)
Fixpoint curly_pairs (n : nat) : str :=
  match n with
  | O => []
  | S n' => lbrace :: rbrace :: curly_pairs n'
  end.

(** The word characters of ASCII, an instance of [\w] for examples. *)
Definition ascii_word (c : N) : bool :=
  bool_decide (48 ≤ c ≤ 57 ∨ 65 ≤ c ≤ 90 ∨ c = 95 ∨ 97 ≤ c ≤ 122).

(** An entry with a source string and a translation and nothing else. *)
Definition simple_entry (source translation : str) : POEntry :=
  {| msgid := source; msgstr := translation; msgid_plural := [];
     msgstr_plural := []; flags := []; obsolete := false |}.

(** A template with the ten registered source strings. *)
Definition registered_template : POFile :=
  (λ s, simple_entry s []) <$> expect.

(** The dictionary [real] after one shortcut entry was sorted into it. *)
Definition add_entry (groups : dict) (entry : POEntry) (real : dict) : dict :=
  (λ '(k, v), (k, if bool_decide (msgid entry ∈ members_of groups k)
                  then v ++ [msgstr entry] else v)) <$> real.

(** What [check_shortcuts] prints about one group of one po file. *)
Definition group_report (is_word : N → bool) (groups : dict) (po_path : str)
    (pof : POFile) (groupname : str) : list message :=
  let translations := group_translations is_word (members_of groups groupname) pof in
  let letters := collect_letters is_word translations in
  if bool_decide (NoDup letters) then []
  else [ErrShortcuts po_path
          (bool_decide (length letters < length translations)%nat)
          groupname (members_of groups groupname) translations].

(** [appends p r text]: whatever was printed before, [p] ends with [r]
    and has added [text]. *)
Definition appends {A} (p : prog A) (r : exn + A) (text : list message) : Prop :=
  ∀ out, p out = (r, out ++ text).

(** [returns p]: [p] raises nothing, and what it returns and prints does
    not depend on what was printed before. *)
Definition returns {A} (p : prog A) : Prop :=
  ∃ a text, appends p (inr a) text.

(** The entry of the example of a source "Hello {name}" translated to
    "Bonjour {nom}", with any flags. *)
Definition hello_entry (fl : list str) : POEntry :=
  {| msgid := py "Hello {name}"; msgstr := py "Bonjour {nom}";
     msgid_plural := []; msgstr_plural := []; flags := fl; obsolete := false |}.

(** The dictionary that [get_shortcut_groups] returns when it returns. *)
Definition shortcut_groups : dict :=
  [ (py "mainwindow",
     [py "Back In &Time"; py "&Backup"; py "&Restore"; py "&Help"]);
    (py "manageprofile",
     [py "&General"; py "&Include"; py "&Exclude"; py "&Auto-remove";
      py "&Options"; py "Back In &Time"; py "E&xpert Options"]) ].

(** The source strings of the template that [get_shortcut_groups] compares
    with [expect]: those of the entries with a shortcut marker that are not
    obsolete. *)
Definition live_strings (is_word : N → bool) (template : POFile) : list str :=
  msgid <$> get_shortcut_entries is_word template.

(** ** Vocabulary of the further statements *)

(** [m] is one of the five error lines of the placeholder pass, about the
    translated string [trans]. *)
Definition is_syntax_error (trans : str) (m : message) : Prop :=
  m = ErrCurlyNested trans ∨ m = ErrCurlyNotBalanced trans
  ∨ (∃ exc, m = ErrOther exc trans)
  ∨ (∃ bracket, m = ErrBracketNumber bracket trans)
  ∨ (∃ org_names trans_names, m = ErrNames org_names trans_names trans).

(** The path of a language line. *)
Definition printed_language (m : message) : option str :=
  match m with MsgLanguage po_path => Some po_path | _ => None end.

(** The entries that can reach a shortcut group: not obsolete, with a
    registered source string. *)
Definition registered_entries (pof : POFile) : POFile :=
  filter (λ e, obsolete e = false ∧ msgid e ∈ expect) pof.

(** What the placeholder pass prints for one entry when nothing was
    printed before. *)
Definition entry_findings (formatter_parse : str → option str)
    (entry : POEntry) : list message :=
  (check_syntax_of_entry formatter_parse entry []).2.

(** ** dict_as_code *)

(** A key of a dict: a [str], or an object of another type, given by the
    text that formatting it in an f-string gives. *)
Inductive pykey :=
  | KStr (s : str)
  | KOther (text : str).

(** A dict, as the sequence of its items in insertion order, and its
    values: a [str], a nested dict, or an object of another type (a number,
    [None]), given by the text that formatting it in an f-string gives. *)
Inductive pydict :=
  | DEmpty
  | DItem (key : pykey) (value : pyvalue) (rest : pydict)
with pyvalue :=
  | VStr (s : str)
  | VDict (d : pydict)
  | VOther (text : str).

Scheme pydict_value_ind := Induction for pydict Sort Prop
  with pyvalue_dict_ind := Induction for pyvalue Sort Prop.

Definition space : N := 32.
Definition quote : N := 39.

(** [' ' * 4 * indent_level] *)
Definition tab_of (indent_level : Z) : str :=
  mjoin (replicate (Z.to_nat indent_level) (py "    ")).

(** [f"{quote_key}{key}{quote_key}"] *)
Definition quoted_key (key : pykey) : str :=
  match key with
  | KStr s => [quote] ++ s ++ [quote]
  | KOther text => text
  end.

Fixpoint dict_as_code (a_dict : pydict) (indent_level : Z) : list str :=
  let tab := tab_of indent_level in
  match a_dict with
  | DEmpty => []
  | DItem key value rest =>
      match value with
      | VDict nested =>
          [tab ++ quoted_key key ++ py ": {"]
          ++ dict_as_code nested (indent_level + 1)
          ++ [tab ++ py "},"]
      | VStr s =>
          [tab ++ quoted_key key ++ py ": " ++ [quote] ++ s ++ [quote] ++ py ","]
      | VOther text =>
          [tab ++ quoted_key key ++ py ": " ++ text ++ py ","]
      end
      ++ dict_as_code rest indent_level
  end.

(** The number of items of a dict, those of the nested dicts included,
    and the number of its nested dicts, at any depth. *)
Fixpoint count_items (d : pydict) : nat :=
  match d with
  | DEmpty => O
  | DItem _ value rest =>
      S (match value with VDict nested => count_items nested | _ => O end
         + count_items rest)
  end.

Fixpoint count_dicts (d : pydict) : nat :=
  match d with
  | DEmpty => O
  | DItem _ value rest =>
      (match value with VDict nested => S (count_dicts nested) | _ => O end
       + count_dicts rest)%nat
  end.

(** ** The script around the passes *)

(** What the script does to the world, in order. *)
Inductive event :=
  (* print(f'polib version: {polib.__version__}') *)
  | PrintedPolibVersion (version : str)
  (* print('Update language (po) files' + ' and remove obsolete entries'
           if remove_obsolete_entries else '') *)
  | PrintedUpdate (text : str)
  (* print('Calculate completeness for each language in percent...') *)
  | PrintedCalculate
  (* print(FIN_MSG) *)
  | PrintedFinMsg
  (* print('Use one of the following argument keywords: ...') *)
  | PrintedUsage
  (* subprocess.run(cmd, check=True) *)
  | Ran (cmd : list str)
  (* pof.save() *)
  | Saved (po_path : str)
  (* print(f'Processing language code "{code}"...') *)
  | PrintedProcessing (code : str)
  (* print('Create new language name list because of missing '
           f'languages: {missing_langs}'); the order in which a set is
     printed is left open *)
  | PrintedMissing (missing_langs : gset str).

Inductive script_exn :=
  (* sys.exit() and sys.exit(1) *)
  | SystemExit (code : option Z)
  (* raise FileNotFoundError(file_path) *)
  | FileNotFoundError (file_path : str)
  (* a command run with check=True that exits with another status than 0 *)
  | CalledProcessError (cmd : list str)
  (* compl.remove(100) without a 100 in the list *)
  | RemoveValueError
  (* sum(compl) / len(compl) on an empty list *)
  | ZeroDivisionError
  (* raise ImportError('Can not import package "polib". Please install
     it.') *)
  | PolibImportError
  (* raise ImportError('Can not import package "babel". ...') *)
  | BabelImportError
  (* raise ImportError(f'Babel version 2.15 required. But
     {babel.__version__} is installed.') *)
  | BabelVersionError (version : str)
  (* d[key] on a key that is absent *)
  | ScriptKeyError (key : str)
  (* languages.names without the attribute *)
  | AttributeError
  (* an exception of babel or packaging *)
  | LibraryError (text : str).

Definition script (A : Type) : Type :=
  list event → (script_exn + A) * list event.

Definition sret {A} (a : A) : script A := λ log, (inr a, log).

Definition sbind {A B} (m : script A) (k : A → script B) : script B :=
  λ log, match m log with
         | (inl e, log') => (inl e, log')
         | (inr a, log') => k a log'
         end.

Definition emit (ev : event) : script () := λ log, (inr (), log ++ [ev]).

Definition sraise {A} (e : script_exn) : script A := λ log, (inl e, log).

Notation "m ;;; k" := (sbind m (λ _, k))
  (at level 100, right associativity).
Notation "x <~ m ;;; k" := (sbind m (λ x, k))
  (at level 100, m at next level, right associativity).

(** A call of a library that returns or raises and does nothing else. *)
Definition call {A} (r : script_exn + A) : script A := λ log, (r, log).

Fixpoint sfor {A S} (l : list A) (body : S → A → script S) (s : S) : script S :=
  match l with
  | [] => sret s
  | x :: l' => sbind (body s x) (sfor l' body)
  end.

Definition sfor_each {A} (l : list A) (body : A → script ()) : script () :=
  sfor l (λ _ x, body x) ().

(** [d[key] = value] on a dict given by its items in insertion order: the
    value of a key that is present is replaced where it stands, a new key
    is appended. *)
Fixpoint setitem {V} (d : list (str * V)) (key : str) (value : V)
    : list (str * V) :=
  match d with
  | [] => [(key, value)]
  | (k, v) :: d' =>
      if decide (k = key) then (k, value) :: d'
      else (k, v) :: setitem d' key value
  end.

Fixpoint lookupitem {V} (d : list (str * V)) (key : str) : option V :=
  match d with
  | [] => None
  | (k, v) :: d' => if decide (k = key) then Some v else lookupitem d' key
  end.

(** [l.remove(x)]: the list without the first [x], [None] for the
    [ValueError] when there is none. *)
Fixpoint list_remove (x : Z) (l : list Z) : option (list Z) :=
  match l with
  | [] => None
  | y :: l' =>
      if decide (y = x) then Some l'
      else (λ r, y :: r) <$> list_remove x l'
  end.

(** [LOCAL_DIR] and [TEMPLATE_PO], as text. *)
Definition local_dir : str := py "common/po".
Definition template_po : str := py "common/po/messages.pot".

(** The dict [statistic] of [create_languages_file]. *)
Record statistic := {
  stat_compl : Z;
  stat_n : nat;
  stat_99_100 : nat;
  stat_90_98 : nat;
  stat_50_89 : nat;
  stat_lt50 : nat
}.

Section script.

(** [po_path.stem] of pathlib. *)
Variable stem : str → str.

(** [pof.percent_translated()] of polib, an int. *)
Variable percent_translated : POFile → Z.

(** Whether a command, run after the events so far, exits with status 0. *)
Variable run_ok : list event → list str → bool.

(** [file_path.exists()] *)
Variable path_exists : str → bool.

(** [round(sum(compl) / len(compl))], by the sum and the length: a float
    division and its rounding. *)
Variable round_mean : Z → nat → Z.

(** [run(cmd, check=True)] *)
Definition run (cmd : list str) : script () :=
  λ log, if run_ok log cmd then (inr (), log ++ [Ran cmd])
         else (inl (CalledProcessError cmd), log ++ [Ran cmd]).

Definition msgmerge_cmd (po_path : str) : list str :=
  let lang := stem po_path in
  [ py "msgmerge"; py "--verbose"; py "--lang=" ++ lang; py "--update";
    py "--sort-by-file"; py "--backup=off"; po_path; template_po ].

Definition msgattrib_cmd (po_path : str) : list str :=
  [ py "msgattrib"; py "--no-obsolete"; py "--output-file=" ++ po_path;
    po_path ].

(** [po_paths] is what [LOCAL_DIR.rglob('**/*.po')] gives. *)
Definition update_po_language_files (remove_obsolete_entries : bool)
    (po_paths : list str) : script () :=
  emit (PrintedUpdate
          (if remove_obsolete_entries
           then py "Update language (po) files"
                ++ py " and remove obsolete entries"
           else [])) ;;;
  sfor_each po_paths (λ po_path,
    run (msgmerge_cmd po_path) ;;;
    if remove_obsolete_entries then run (msgattrib_cmd po_path)
    else sret ()).

Definition check_existence : script () :=
  sfor_each [local_dir; template_po] (λ file_path,
    if negb (path_exists file_path) then sraise (FileNotFoundError file_path)
    else sret ()).

(** [po_files] is what [all_po_files_in_local_dir()] and [polib.pofile]
    give, as in the passes. *)
Definition create_completeness_dict (po_files : list (str * POFile))
    : script (list (str * Z)) :=
  emit PrintedCalculate ;;;
  sbind
    (sfor po_files (λ result '(po_path, pof),
       let result := setitem result (stem po_path) (percent_translated pof) in
       emit (Saved po_path) ;;;
       sret result) [])
    (λ result,
       let result := setitem result (py "en") 100%Z in
       sret result).

(** The statistics of [create_languages_file], from
    [compl = list(compl_dict.values())] to the dict [statistic]. *)
Definition completeness_statistic (compl_dict : list (str * Z))
    : script_exn + statistic :=
  let compl := compl_dict.*2 in
  match list_remove 100%Z compl with
  | None => inl RemoveValueError
  | Some compl =>
      if decide (length compl = O) then inl ZeroDivisionError
      else inr {|
        stat_compl := round_mean (foldr Z.add 0%Z compl) (length compl);
        stat_n := length compl;
        stat_99_100 := length (filter (λ val, (val >= 99)%Z) compl);
        stat_90_98 := length (filter (λ val, (90 <= val < 99)%Z) compl);
        stat_50_89 := length (filter (λ val, (50 <= val <= 89)%Z) compl);
        stat_lt50 := length (filter (λ val, (val < 50)%Z) compl)
      |}
  end.

(** The functions that [main] calls and that are run as they are:
    [update_po_template], [create_languages_file], [update_from_weblate]
    and the two passes. *)
Variable update_po_template : script ().
Variable create_languages_file : script ().
Variable update_from_weblate : script ().
Variable run_check_syntax_of_po_files : script ().
Variable run_check_shortcuts : script ().

(** [po_paths] is what [LOCAL_DIR.rglob('**/*.po')] gives to
    [update_po_language_files]. *)
Variable po_paths : list str.

Definition sys_exit (code : option Z) : script () := sraise (SystemExit code).

(** The script under [if __name__ == '__main__'], by [sys.argv]. *)
Definition main (argv : list str) : script () :=
  check_existence ;;;
  (if bool_decide (py "source" ∈ argv) then
     update_po_template ;;;
     update_po_language_files
       (bool_decide (py "--remove-obsolete-entries" ∈ argv)) po_paths ;;;
     create_languages_file ;;;
     emit PrintedFinMsg ;;;
     sys_exit None
   else sret ()) ;;;
  (if bool_decide (py "weblate" ∈ argv) then
     update_from_weblate ;;;
     run_check_syntax_of_po_files ;;;
     create_languages_file ;;;
     emit PrintedFinMsg ;;;
     sys_exit None
   else sret ()) ;;;
  (if bool_decide (py "shortcuts" ∈ argv) then
     run_check_shortcuts ;;;
     sys_exit None
   else sret ()) ;;;
  (if bool_decide (py "syntax" ∈ argv) then
     run_check_syntax_of_po_files ;;;
     sys_exit None
   else sret ()) ;;;
  emit PrintedUsage ;;;
  sys_exit (Some 1%Z).

(** [from common import languages] *)
Variable import_common_languages : script ().

(** [import polib]: [None] when it raises [ImportError], else
    [polib.__version__]. *)
Variable polib_version : option str.

(** [Path('VERSION').read_text('utf-8').strip()] *)
Variable read_package_version : script_exn + str.

(** The statements of the module before the functions: the imports, the
    line with the version of polib and the constants. *)
Definition module_level : script () :=
  import_common_languages ;;;
  (match polib_version with
   | Some version => emit (PrintedPolibVersion version)
   | None => sraise PolibImportError
   end) ;;;
  _ <~ call read_package_version ;;;
  sret ().

(** The script run as a program. *)
Definition run_script (argv : list str) : script () :=
  module_level ;;;
  main argv.

End script.

(** ** The passes with the reading of their files *)

Section reading.

Variable formatter_parse : str → option str.
Variable translated : POEntry → bool.
Variable is_word : N → bool.

(** [polib.pofile(po_path)]: the entries of the file, [None] when polib
    raises. *)
Variable pofile : str → option POFile.

Definition polib_pofile (po_path : str) : prog POFile :=
  match pofile po_path with
  | Some pof => ret pof
  | None => raise (PofileError po_path)
  end.

(** [check_syntax_of_po_files], from the paths that
    [all_po_files_in_local_dir()] gives. *)
Definition check_syntax_of_po_files_read (po_paths : list str) : prog () :=
  print MsgCheckingSyntax ;;
  for_each po_paths (λ po_path,
    print (MsgLanguage po_path) ;;
    pof <- polib_pofile po_path ;;
    for_each (translated_entries translated pof)
             (check_syntax_of_entry formatter_parse)) ;;
  print MsgEmpty.

(** [get_shortcut_groups], with [polib.pofile(TEMPLATE_PO)]. *)
Definition get_shortcut_groups_read : prog dict :=
  template <- polib_pofile template_po ;;
  get_shortcut_groups is_word template.

(** [check_shortcuts], from the paths that [LOCAL_DIR.rglob('**/*.po')]
    gives. *)
Definition check_shortcuts_read (po_paths : list str) : prog () :=
  groups <- get_shortcut_groups_read ;;
  for_each po_paths (λ po_path,
    print (MsgPoPath po_path) ;;
    let real := (λ key, (key, [])) <$> dict_keys groups in
    pof <- polib_pofile po_path ;;
    let shortcut_entries := get_shortcut_entries is_word pof in
    real <- group_entries groups real shortcut_entries ;;
    for_each (dict_keys real) (check_shortcut_group is_word groups real po_path)).

End reading.

(** What the placeholder pass prints for a po file that polib reads: the
    language line and the findings of the translated entries. *)
Definition syntax_findings (formatter_parse : str → option str)
    (translated : POEntry → bool) : str * POFile → list message :=
  λ '(po_path, pof),
    MsgLanguage po_path
      :: (translated_entries translated pof ≫= entry_findings formatter_parse).

(** What the shortcut pass prints about a po file that polib reads, after
    the line with its path. *)
Definition shortcut_report (is_word : N → bool) (po_path : str)
    (pof : POFile) : list message :=
  dict_keys shortcut_groups
    ≫= group_report is_word shortcut_groups po_path pof.

(** The letter that an entry of a po file adds to the letters of a group
    with the source strings [members]. *)
Definition entry_letter (is_word : N → bool) (members : list str)
    (entry : POEntry) : option N :=
  if decide (obsolete entry = false
             ∧ is_Some (rex_shortcut_letter_search is_word (msgid entry))
             ∧ msgid entry ∈ members)
  then rex_shortcut_letter_search is_word (msgstr entry)
  else None.

(** A folder for examples: the template with the registered strings, a
    French file where two translations of the main window share the letter
    S and one translation has a bracket too many, and no other file that
    polib can read. *)
Definition sample_fr_po : POFile :=
  [simple_entry (py "&Backup") (py "&Sauvegarder");
   simple_entry (py "&Restore") (py "&Restaurer");
   simple_entry (py "&Help") (py "&Support");
   simple_entry (py "&Options") (py "Options");
   simple_entry (py "{a}") (py "{a")].

Definition sample_pofile (po_path : str) : option POFile :=
  if bool_decide (po_path = template_po) then Some registered_template
  else if bool_decide (po_path = py "common/po/fr.po") then Some sample_fr_po
  else None.

(** The po files of the paths, when polib reads them all. *)
Fixpoint read_all (pofile : str → option POFile) (po_paths : list str)
    : option (list (str * POFile)) :=
  match po_paths with
  | [] => Some []
  | po_path :: rest =>
      match pofile po_path, read_all pofile rest with
      | Some pof, Some po_files => Some ((po_path, pof) :: po_files)
      | _, _ => None
      end
  end.

(** The group of a finding of the shortcut pass. *)
Definition finding_group (m : message) : option str :=
  match m with ErrShortcuts _ _ groupname _ _ => Some groupname | _ => None end.

(** [letter] is the shortcut letter of [s]: the word character after the
    first '&' of [s] that has a word character next. *)
Definition first_marker_letter (is_word : N → bool) (s : str) (letter : N)
    : Prop :=
  ∃ i, s !! i = Some amp ∧ s !! S i = Some letter ∧ is_word letter = true
       ∧ ∀ j, (j < i)%nat → ¬ marker_at is_word s j.

(** The entry at position [i] of the po file is not obsolete, has a
    shortcut marker in its source string, which is one of [members], and
    its translation has the shortcut letter [letter]. *)
Definition group_letter_at (is_word : N → bool) (members : list str)
    (pof : POFile) (i : nat) (letter : N) : Prop :=
  ∃ entry, pof !! i = Some entry
           ∧ obsolete entry = false
           ∧ (∃ k, marker_at is_word (msgid entry) k)
           ∧ msgid entry ∈ members
           ∧ first_marker_letter is_word (msgstr entry) letter.

(** [get_shortcut_entries] keeps the entry. *)
Definition is_shortcut_entry (is_word : N → bool) (entry : POEntry) : Prop :=
  obsolete entry = false ∧ ∃ i, marker_at is_word (msgid entry) i.

(** ** The names of the languages *)

(** The names of one language: from "_native" and the language codes to
    names, [None] for Python's [None]. *)
Abbreviation names_of_language := (list (str * option str)).

Abbreviation names_dict := (list (str * names_of_language)).

(** [result[code][key] = name] *)
Definition set_name (result : names_dict) (code key : str)
    (name : option str) : script names_dict :=
  match lookupitem result code with
  | Some names => sret (setitem result code (setitem names key name))
  | None => sraise (ScriptKeyError code)
  end.

Section language_names.

(** The objects that [babel.Locale.parse] returns. *)
Variable locale : Type.

(** [import babel]: [None] when it raises [ImportError], else
    [babel.__version__]. *)
Variable babel_version : option str.

(** [from packaging.version import Version] and
    [Version(babel.__version__) < Version('2.15')], by the version. *)
Variable version_below_2_15 : str → script_exn + bool.

(** [babel.Locale.parse(code)] *)
Variable locale_parse : str → script_exn + locale.

(** [lang.get_display_name(code)] *)
Variable get_display_name : locale → str → script_exn + option str.

(** [languages.names] of [common/languages.py], [None] when the module has
    no such attribute. *)
Variable languages_names : option names_dict.

(** [po_path.stem] of pathlib. *)
Variable stem : str → str.

(** [language_codes] after [if 'en' not in language_codes:
    language_codes.append('en')]. *)
Definition with_english (language_codes : list str) : list str :=
  if bool_decide (py "en" ∈ language_codes) then language_codes
  else language_codes ++ [py "en"].

Definition create_language_names_dict (language_codes : list str)
    : script names_dict :=
  match babel_version with
  | None => sraise BabelImportError
  | Some version =>
      below <~ call (version_below_2_15 version) ;;;
      if (below : bool) then sraise (BabelVersionError version)
      else
        let language_codes := with_english language_codes in
        sfor (sorted language_codes) (λ result code,
          emit (PrintedProcessing code) ;;;
          lang <~ call (locale_parse code) ;;;
          let result := setitem result code [] in
          native <~ call (get_display_name lang code) ;;;
          result <~ set_name result code (py "_native") native ;;;
          sfor language_codes (λ result foreign,
            name <~ call (get_display_name lang foreign) ;;;
            set_name result code foreign name) result) []
  end.

(** [po_paths] is what [LOCAL_DIR.rglob('**/*.po')] gives. *)
Definition update_language_names (po_paths : list str) : script names_dict :=
  let langs := stem <$> po_paths in
  let missing_langs : list str :=
    match languages_names with
    | Some names => filter (λ lang, lang ∉ names.*1) langs
    | None => [py "foo"]
    end in
  if bool_decide (missing_langs ≠ []) then
    emit (PrintedMissing (list_to_set missing_langs)) ;;;
    create_language_names_dict langs
  else
    match languages_names with
    | Some names => sret names
    | None => sraise AttributeError
    end.

End language_names.

(** The dict after the loop of [create_completeness_dict]. *)
Definition filled_dict (stem : str → str) (percent_translated : POFile → Z)
    (result : list (str * Z)) (po_files : list (str * POFile))
    : list (str * Z) :=
  foldl (λ result '(po_path, pof),
           setitem result (stem po_path) (percent_translated pof))
        result po_files.

(** What holds of the dict of [create_language_names_dict] after the
    languages [processed], for the language codes [codes]. *)
Definition names_complete_for (locale : Type)
    (locale_parse : str → script_exn + locale)
    (get_display_name : locale → str → script_exn + option str)
    (codes processed : list str) (result : names_dict) : Prop :=
  NoDup result.*1
  ∧ result.*1 `sublist_of` processed
  ∧ (∀ k, k ∈ result.*1 ↔ k ∈ processed)
  ∧ ∀ code, code ∈ processed →
      ∃ lang names,
        locale_parse code = inr lang
        ∧ lookupitem result code = Some names
        ∧ (∀ foreign, foreign ∈ codes →
             ∃ name, get_display_name lang foreign = inr name
                     ∧ lookupitem names foreign = Some name)
        ∧ (py "_native" ∉ codes →
             ∃ name, get_display_name lang code = inr name
                     ∧ lookupitem names (py "_native") = Some name).

(** The commands that [update_po_language_files] has to run, in order. *)
Definition language_file_commands (stem : str → str)
    (remove_obsolete_entries : bool) (po_paths : list str) : list (list str) :=
  po_paths ≫= λ po_path,
    msgmerge_cmd stem po_path
      :: (if remove_obsolete_entries then [msgattrib_cmd po_path] else []).

(** A part of the script that returns, whatever happened before. *)
Definition sreturns {A} (p : script A) : Prop :=
  ∀ log, ∃ a log', p log = (inr a, log').

(** A part of the script that raises [e], whatever happened before. *)
Definition sexits {A} (p : script A) (e : script_exn) : Prop :=
  ∀ log, ∃ log', p log = (inl e, log').

(** One of the four keywords of [main] is among the arguments. *)
Definition has_keyword (argv : list str) : Prop :=
  py "source" ∈ argv ∨ py "weblate" ∈ argv
  ∨ py "shortcuts" ∈ argv ∨ py "syntax" ∈ argv.

(** * Properties *)

(** ** The order on strings and [sorted] *)

Global Instance str_lexle_total : Total str_lexle.
Proof.
  intros a. unfold str_lexle.
  induction a as [|x a IH]; intros [|y b]; simpl; auto.
  destruct (N.ltb_spec x y), (N.ltb_spec y x), (N.eqb_spec x y), (N.eqb_spec y x);
    auto; try lia.
Qed.

Global Instance str_lexle_trans : Transitive str_lexle.
Proof.
  intros a. unfold str_lexle.
  induction a as [|x a IH]; intros [|y b] [|z c]; simpl; auto; try done.
  destruct (N.ltb_spec x y), (N.ltb_spec y z), (N.ltb_spec x z),
    (N.eqb_spec x y), (N.eqb_spec y z), (N.eqb_spec x z);
    try done; try lia.
  apply IH.
Qed.

Global Instance str_lexle_antisymm : AntiSymm (=) str_lexle.
Proof.
  intros a. unfold str_lexle.
  induction a as [|x a IH]; intros [|y b]; simpl; auto; try done.
  destruct (N.ltb_spec x y), (N.ltb_spec y x), (N.eqb_spec x y), (N.eqb_spec y x);
    try done; try lia.
  intros H1 H2. subst. f_equal. by apply IH.
Qed.

(** Two lists sort to the same list exactly when one rearranges the
    other. *)
Lemma sorted_eq_iff (l1 l2 : list str) : sorted l1 = sorted l2 ↔ l1 ≡ₚ l2.
Proof.
  unfold sorted. split.
  - intros E. rewrite <- (merge_sort_Permutation str_lexle l1), E.
    apply merge_sort_Permutation.
  - intros HP. apply (Sorted_unique str_lexle).
    + apply (Sorted_merge_sort _).
    + apply (Sorted_merge_sort _).
    + by rewrite !merge_sort_Permutation.
Qed.

(** ** Programs that only append to standard output *)

Lemma appends_ret {A} (a : A) : appends (ret a) (inr a) [].
Proof. intros out. unfold ret. by rewrite app_nil_r. Qed.

Lemma appends_raise {A} (e : exn) : appends (raise (A:=A) e) (inl e) [].
Proof. intros out. unfold raise. by rewrite app_nil_r. Qed.

Lemma appends_print (m : message) : appends (print m) (inr ()) [m].
Proof. by intros out. Qed.

Lemma appends_bind {A B} (m : prog A) (k : A → prog B) a t1 r t2 :
  appends m (inr a) t1 → appends (k a) r t2 →
  appends (bind m k) r (t1 ++ t2).
Proof.
  intros Hm Hk out. unfold bind. by rewrite Hm, Hk, app_assoc.
Qed.

Lemma appends_bind_raise {A B} (m : prog A) (k : A → prog B) e t1 :
  appends m (inl e) t1 → appends (bind m k) (inl e) t1.
Proof. intros Hm out. unfold bind. by rewrite Hm. Qed.

Lemma appends_det {A} (p : prog A) r1 t1 r2 t2 :
  appends p r1 t1 → appends p r2 t2 → r1 = r2 ∧ t1 = t2.
Proof.
  intros H1 H2. specialize (H1 []). specialize (H2 []).
  rewrite H1 in H2. by simplify_eq/=.
Qed.

(** A loop whose body never raises and only appends. *)
Lemma appends_for_each {A} (body : A → prog ()) (text : A → list message) l :
  (∀ x, x ∈ l → appends (body x) (inr ()) (text x)) →
  appends (for_each l body) (inr ()) (l ≫= text).
Proof.
  unfold for_each. induction l as [|x l IH]; intros Hbody; simpl.
  - apply appends_ret.
  - eapply appends_bind.
    + apply Hbody. by left.
    + apply IH. intros y Hy. apply Hbody. by right.
Qed.

(** ** Dictionaries *)

Lemma dict_lookup_is_Some (d : dict) k :
  k ∈ dict_keys d → is_Some (dict_lookup d k).
Proof.
  unfold dict_keys. induction d as [|[k' v] d IH]; simpl.
  - by intros ?%elem_of_nil.
  - intros [->|Hk]%elem_of_cons; case_decide; eauto; done.
Qed.

Lemma getitem_members groups k :
  k ∈ dict_keys groups →
  appends (getitem groups k) (inr (members_of groups k)) [].
Proof.
  intros [v Hv]%dict_lookup_is_Some. unfold getitem, members_of.
  rewrite Hv. apply appends_ret.
Qed.

Lemma dict_append_middle (pre rest : dict) k v x :
  k ∉ dict_keys pre →
  dict_append (pre ++ (k, v) :: rest) k x = pre ++ (k, v ++ [x]) :: rest.
Proof.
  unfold dict_keys. induction pre as [|[k' v'] pre IH]; simpl; intros Hk.
  - by rewrite decide_True.
  - apply not_elem_of_cons in Hk as [Hne Hk].
    rewrite decide_False by done. by rewrite IH.
Qed.

Lemma dict_lookup_tabulate (f : str → list str) (ks : list str) k :
  k ∈ ks → dict_lookup ((λ key, (key, f key)) <$> ks) k = Some (f k).
Proof.
  induction ks as [|k' ks IH]; simpl.
  - by intros ?%elem_of_nil.
  - intros Hk. case_decide as E; [by subst|].
    apply IH. by apply elem_of_cons in Hk as [->|Hk].
Qed.

Lemma dict_keys_tabulate (f : str → list str) (ks : list str) :
  dict_keys ((λ key, (key, f key)) <$> ks) = ks.
Proof.
  unfold dict_keys. rewrite <- list_fmap_compose. apply list_fmap_id.
Qed.

(** ** Sets of letters *)

Lemma size_set_of_letters (letters : str) :
  size (list_to_set (C:=gset N) letters) = length (remove_dups letters).
Proof.
  rewrite <- (size_list_to_set (C:=gset N) (remove_dups letters))
    by apply NoDup_remove_dups.
  f_equal. apply set_eq. intros x.
  by rewrite !elem_of_list_to_set, elem_of_remove_dups.
Qed.

Lemma length_remove_dups_le (l : str) : (length (remove_dups l) ≤ length l)%nat.
Proof. induction l; simpl; [done|]. case_decide; simpl; lia. Qed.

Lemma length_remove_dups_lt (l : str) :
  (length (remove_dups l) < length l)%nat ↔ ¬ NoDup l.
Proof.
  induction l as [|x l IH]; simpl.
  - split; [lia|]. intros H. destruct H. constructor.
  - pose proof (length_remove_dups_le l). rewrite NoDup_cons.
    case_decide; simpl.
    + split; [tauto|lia].
    + rewrite <- Nat.succ_lt_mono, IH. tauto.
Qed.

Lemma redundant_letters_iff (letters : str) :
  (size (list_to_set (C:=gset N) letters) < length letters)%nat
  ↔ ¬ NoDup letters.
Proof. rewrite size_set_of_letters. apply length_remove_dups_lt. Qed.

(** A list has a repetition exactly when some element occurs more than
    once. *)
Lemma not_NoDup_iff_count (l : str) :
  ¬ NoDup l ↔ ∃ c, (1 < str_count c l)%nat.
Proof.
  unfold str_count. induction l as [|x l IH].
  - split; [intros H; destruct H; constructor|].
    intros [c Hc]. simpl in Hc. lia.
  - rewrite NoDup_cons. split.
    + intros H. destruct (decide (x ∈ l)) as [Hx|Hx].
      * exists x. rewrite filter_cons_True by done. simpl.
        apply Nat.succ_lt_mono.
        destruct (filter (λ y, y = x) l) as [|z zs] eqn:E; simpl; [|lia].
        assert (x ∈ filter (λ y, y = x) l) as Hin
          by (by apply list_elem_of_filter).
        rewrite E in Hin. by apply elem_of_nil in Hin.
      * destruct IH as [IH1 _]. destruct IH1 as [c Hc]; [tauto|].
        exists c. rewrite filter_cons. case_decide; simpl; lia.
    + intros [c Hc] [Hx Hnd]. rewrite filter_cons in Hc.
      case_decide as Hxc; simpl in Hc.
      * subst c. apply Hx.
        destruct (filter (λ y, y = x) l) as [|z zs] eqn:E; simpl in Hc; [lia|].
        assert (z ∈ filter (λ y, y = x) l) as Hin by (rewrite E; by left).
        apply list_elem_of_filter in Hin as [-> ?]. done.
      * destruct IH as [_ IH2]. apply IH2; eauto.
Qed.

Lemma appends_bind_silent {A B} (m : prog A) (k : A → prog B) a r t :
  appends m (inr a) [] → appends (k a) r t → appends (bind m k) r t.
Proof. intros Hm Hk. apply (appends_bind m k a [] r t Hm Hk). Qed.

(** ** The shortcut groups *)

Lemma get_shortcut_groups_spec (is_word : N → bool) (template : POFile) :
  (live_strings is_word template ≡ₚ expect →
     appends (get_shortcut_groups is_word template) (inr shortcut_groups) [])
  ∧ (¬ live_strings is_word template ≡ₚ expect →
     appends (get_shortcut_groups is_word template)
       (inl (ValueError (sorted expect)
                        (sorted (live_strings is_word template)))) []).
Proof.
  unfold get_shortcut_groups, live_strings. split; intros HP.
  - rewrite bool_decide_eq_false_2; [apply appends_ret|].
    intros Hne. apply Hne. by apply sorted_eq_iff.
  - rewrite bool_decide_eq_true_2; [apply appends_raise|].
    intros E. apply HP. by apply sorted_eq_iff.
Qed.

Lemma NoDup_expect : NoDup expect.
Proof. by apply (bool_decide_unpack _). Qed.

(** A list rearranges [expect] exactly when it has no repetition and the
    same elements. *)
Lemma rearranges_expect_iff (live : list str) :
  live ≡ₚ expect ↔ NoDup live ∧ ∀ s, s ∈ live ↔ s ∈ expect.
Proof.
  split.
  - intros HP. split.
    + rewrite HP. apply NoDup_expect.
    + intros s. by rewrite HP.
  - intros [Hnd Hs]. apply NoDup_Permutation; [done|apply NoDup_expect|done].
Qed.

Lemma not_same_elements (l1 l2 : list str) :
  ¬ (∀ s, s ∈ l1 ↔ s ∈ l2)
  ↔ ∃ s, (s ∈ l1 ∧ s ∉ l2) ∨ (s ∈ l2 ∧ s ∉ l1).
Proof.
  split.
  - intros Hne.
    destruct (decide (Forall (λ s, s ∈ l2) l1)) as [H12|H12].
    + destruct (decide (Forall (λ s, s ∈ l1) l2)) as [H21|H21].
      * destruct Hne. rewrite Forall_forall in H12, H21. split; auto.
      * apply not_Forall_Exists in H21; [|apply _].
        apply Exists_exists in H21 as (s & ? & ?). eauto.
    + apply not_Forall_Exists in H12; [|apply _].
      apply Exists_exists in H12 as (s & ? & ?). eauto.
  - intros [s [[H1 H2]|[H1 H2]]] Hs; apply H2, Hs, H1.
Qed.

Lemma get_shortcut_groups_returns_iff (is_word : N → bool) (template : POFile) :
  live_strings is_word template ≡ₚ expect
  ↔ appends (get_shortcut_groups is_word template) (inr shortcut_groups) [].
Proof.
  destruct (get_shortcut_groups_spec is_word template) as [Hok Hdrift].
  split; [apply Hok|].
  intros Hr.
  destruct (decide (live_strings is_word template ≡ₚ expect)) as [|HP]; [done|].
  specialize (Hdrift HP). by destruct (appends_det _ _ _ _ _ Hr Hdrift).
Qed.

Lemma get_shortcut_groups_raises_iff (is_word : N → bool) (template : POFile) :
  appends (get_shortcut_groups is_word template)
    (inl (ValueError (sorted expect) (sorted (live_strings is_word template))))
    []
  ↔ ¬ live_strings is_word template ≡ₚ expect.
Proof.
  destruct (get_shortcut_groups_spec is_word template) as [Hok Hdrift].
  split; [|apply Hdrift].
  intros Hd HP. specialize (Hok HP).
  by destruct (appends_det _ _ _ _ _ Hd Hok).
Qed.

(** ** The shortcut pass on one po file *)

Section shortcut_pass.

Variable is_word : N → bool.
Variable groups : dict.

Lemma dict_keys_add_entry e (real : dict) :
  dict_keys (add_entry groups e real) = dict_keys real.
Proof.
  unfold dict_keys, add_entry. rewrite <- list_fmap_compose.
  apply list_fmap_ext. by intros ? [k v] _.
Qed.

(** The inner loop [for groupname in real] for one entry. *)
Lemma sort_entry_into_groups e (todo pre : dict) :
  NoDup (dict_keys todo) →
  (∀ k, k ∈ dict_keys todo → k ∉ dict_keys pre) →
  dict_keys todo ⊆ dict_keys groups →
  appends
    (for_loop (dict_keys todo) (λ real groupname,
       members <- getitem groups groupname ;;
       if bool_decide (msgid e ∈ members) then
         _ <- getitem real groupname ;;
         ret (dict_append real groupname (msgstr e))
       else ret real) (pre ++ todo))
    (inr (pre ++ add_entry groups e todo)) [].
Proof.
  revert pre. induction todo as [|[k v] todo IH]; intros pre Hnd Hpre Hsub.
  - apply appends_ret.
  - simpl in *. apply NoDup_cons in Hnd as [Hk Hnd].
    assert (k ∈ dict_keys groups) as Hkg by (apply Hsub; by left).
    assert (k ∉ dict_keys pre) as Hkp by (apply Hpre; by left).
    set (v' := if bool_decide (msgid e ∈ members_of groups k)
               then v ++ [msgstr e] else v).
    apply appends_bind_silent with (a := pre ++ (k, v') :: todo).
    + apply appends_bind_silent with (a := members_of groups k);
        [by apply getitem_members|].
      subst v'. case_bool_decide.
      * apply appends_bind_silent with (a := v).
        -- intros out. unfold getitem.
           assert (dict_lookup (pre ++ (k, v) :: todo) k = Some v) as ->.
           { clear -Hkp. unfold dict_keys in Hkp.
             induction pre as [|[k' w] pre IH]; simpl.
             - by rewrite decide_True.
             - apply not_elem_of_cons in Hkp as [? ?].
               rewrite decide_False by done. by apply IH. }
           by apply appends_ret.
        -- rewrite dict_append_middle by done. apply appends_ret.
      * apply appends_ret.
    + rewrite (cons_middle _ pre), (cons_middle _ pre (add_entry _ _ _)),
        !app_assoc.
      apply IH; [done| |].
      * intros k' Hk'. unfold dict_keys in *. rewrite fmap_app. simpl.
        intros [?| ->%list_elem_of_singleton]%elem_of_app.
        -- eapply Hpre; [by right|done].
        -- done.
      * intros k' Hk'. apply Hsub. by right.
Qed.

Lemma group_entries_spec (entries : list POEntry) (real : dict) :
  NoDup (dict_keys real) →
  dict_keys real ⊆ dict_keys groups →
  appends (group_entries groups real entries)
          (inr (foldl (λ r e, add_entry groups e r) real entries)) [].
Proof.
  unfold group_entries.
  revert real. induction entries as [|e entries IH]; intros real Hnd Hsub.
  - apply appends_ret.
  - simpl. apply appends_bind_silent with (a := add_entry groups e real).
    + apply (sort_entry_into_groups e real []); [done| |done].
      intros k _. apply not_elem_of_nil.
    + apply IH; by rewrite dict_keys_add_entry.
Qed.

(** [real], filled from empty lists, holds for every group its
    translations. *)
Lemma fold_add_entry (entries : list POEntry) (f : str → list str) ks :
  foldl (λ r e, add_entry groups e r) ((λ key, (key, f key)) <$> ks) entries
  = (λ key, (key, f key ++
        (msgstr <$> filter (λ e, msgid e ∈ members_of groups key) entries)))
    <$> ks.
Proof.
  revert f. induction entries as [|e entries IH]; intros f; simpl.
  - apply list_fmap_ext. intros _ k _. simpl. by rewrite app_nil_r.
  - assert (add_entry groups e ((λ key, (key, f key)) <$> ks)
            = (λ key, (key, if bool_decide (msgid e ∈ members_of groups key)
                            then f key ++ [msgstr e] else f key)) <$> ks)
      as ->.
    { unfold add_entry. by rewrite <- list_fmap_compose. }
    rewrite IH. apply list_fmap_ext. intros _ k _. simpl.
    rewrite filter_cons. case_bool_decide as Hm.
    + rewrite decide_True by done. rewrite fmap_cons.
      by rewrite <- app_assoc.
    + by rewrite decide_False by done.
Qed.

Lemma collect_letters_omap (translations : list str) :
  collect_letters is_word translations
  = omap (rex_shortcut_letter_search is_word) translations.
Proof.
  unfold collect_letters.
  enough (∀ acc, foldl (λ letters trans,
             match rex_shortcut_letter_search is_word trans with
             | Some letter => letters ++ [letter]
             | None => letters
             end) acc translations
           = acc ++ omap (rex_shortcut_letter_search is_word) translations)
    as H by apply (H []).
  induction translations as [|t ts IH]; intros acc; simpl.
  - by rewrite app_nil_r.
  - rewrite IH. destruct (rex_shortcut_letter_search is_word t); [|done].
    by rewrite <- app_assoc.
Qed.

Lemma check_shortcut_group_spec po_path pof g :
  g ∈ dict_keys groups →
  appends
    (check_shortcut_group is_word groups
       ((λ key, (key, group_translations is_word (members_of groups key) pof))
          <$> dict_keys groups) po_path g)
    (inr ()) (group_report is_word groups po_path pof g).
Proof.
  intros Hg. unfold check_shortcut_group, group_report.
  apply appends_bind_silent
    with (a := group_translations is_word (members_of groups g) pof).
  { intros out. unfold getitem.
    rewrite (dict_lookup_tabulate
               (λ key, group_translations is_word (members_of groups key) pof))
      by done.
    by apply appends_ret. }
  cbv zeta. rewrite (bool_decide_ext _ _ (redundant_letters_iff _)).
  case_bool_decide as Hdup.
  - rewrite (bool_decide_eq_false_2 _ Hdup).
    apply appends_bind_silent with (a := members_of groups g);
      [by apply getitem_members|].
    apply appends_print.
  - rewrite (bool_decide_eq_true_2 _ Hdup).
    apply appends_ret.
Qed.

(** What the pass prints for one po file: the path, then the reports of
    the groups in the order of the dictionary. *)
Lemma check_shortcuts_of_po_file_spec po_path pof :
  NoDup (dict_keys groups) →
  appends (check_shortcuts_of_po_file is_word groups po_path pof) (inr ())
    (MsgPoPath po_path
       :: (dict_keys groups ≫= group_report is_word groups po_path pof)).
Proof.
  intros Hnd. unfold check_shortcuts_of_po_file.
  apply (appends_bind _ _ () [MsgPoPath po_path]); [apply appends_print|].
  eapply appends_bind_silent.
  - apply group_entries_spec.
    + by rewrite (dict_keys_tabulate (λ _, [])).
    + by rewrite (dict_keys_tabulate (λ _, [])).
  - rewrite (fold_add_entry _ (λ _, [])). simpl.
    rewrite (dict_keys_tabulate
      (λ key, msgstr <$> filter (λ e, msgid e ∈ members_of groups key)
                           (get_shortcut_entries is_word pof))).
    apply appends_for_each. intros g Hg.
    by apply check_shortcut_group_spec.
Qed.

End shortcut_pass.

Lemma NoDup_shortcut_group_names : NoDup (dict_keys shortcut_groups).
Proof. by apply (bool_decide_unpack _). Qed.

(** What the whole shortcut pass does. *)
Lemma check_shortcuts_spec (is_word : N → bool) (template : POFile)
    (po_files : list (str * POFile)) :
  (live_strings is_word template ≡ₚ expect →
     appends (check_shortcuts is_word template po_files) (inr ())
       (po_files ≫= λ '(po_path, pof),
          MsgPoPath po_path
            :: (dict_keys shortcut_groups
                  ≫= group_report is_word shortcut_groups po_path pof)))
  ∧ (¬ live_strings is_word template ≡ₚ expect →
     appends (check_shortcuts is_word template po_files)
       (inl (ValueError (sorted expect)
                        (sorted (live_strings is_word template)))) []).
Proof.
  destruct (get_shortcut_groups_spec is_word template) as [Hok Hdrift].
  unfold check_shortcuts. split; intros HP.
  - apply appends_bind_silent with (a := shortcut_groups); [by apply Hok|].
    apply appends_for_each. intros [po_path pof] _.
    apply check_shortcuts_of_po_file_spec, NoDup_shortcut_group_names.
  - apply appends_bind_raise. by apply Hdrift.
Qed.

Lemma get_shortcut_entries_without_plural (is_word : N → bool) (pof : POFile) :
  get_shortcut_entries is_word (without_plural <$> pof)
  = without_plural <$> get_shortcut_entries is_word pof.
Proof.
  unfold get_shortcut_entries. induction pof as [|e pof IH]; [done|].
  rewrite fmap_cons, !filter_cons. simpl. rewrite IH.
  case_decide; by rewrite ?fmap_cons.
Qed.

Lemma live_strings_without_plural (is_word : N → bool) (template : POFile) :
  live_strings is_word (without_plural <$> template)
  = live_strings is_word template.
Proof.
  unfold live_strings. rewrite get_shortcut_entries_without_plural.
  rewrite <- list_fmap_compose. by apply list_fmap_ext.
Qed.

Lemma group_report_without_plural (is_word : N → bool) groups po_path pof g :
  group_report is_word groups po_path (without_plural <$> pof) g
  = group_report is_word groups po_path pof g.
Proof.
  unfold group_report.
  assert (∀ members,
    group_translations is_word members (without_plural <$> pof)
    = group_translations is_word members pof) as E; [|by rewrite E].
  intros members. unfold group_translations.
  rewrite get_shortcut_entries_without_plural.
  induction (get_shortcut_entries is_word pof) as [|e l IH]; [done|].
  rewrite fmap_cons, !filter_cons. simpl.
  case_decide; by rewrite ?fmap_cons, IH.
Qed.


Lemma appends_pnot (p : prog bool) b t :
  appends p (inr b) t → appends (pnot p) (inr (negb b)) t.
Proof.
  intros Hp. rewrite <- (app_nil_r t).
  apply (appends_bind _ _ b t _ [] Hp). apply appends_ret.
Qed.

Lemma appends_por_true (a b : prog bool) t :
  appends a (inr true) t → appends (por a b) (inr true) t.
Proof.
  intros Ha. rewrite <- (app_nil_r t).
  apply (appends_bind _ _ true t _ [] Ha). apply appends_ret.
Qed.

Lemma appends_por_false (a b : prog bool) r t1 t2 :
  appends a (inr false) t1 → appends b r t2 → appends (por a b) r (t1 ++ t2).
Proof. intros Ha Hb. by apply (appends_bind _ _ false t1 _ t2 Ha). Qed.

(** ** The placeholder pass *)

Lemma curly_pair_sub_nil_iff (s : str) :
  rex_curly_pair_sub s = [] ↔ ∃ n, s = curly_pairs n.
Proof.
  enough ((rex_curly_pair_sub s = [] ↔ ∃ n, s = curly_pairs n)
          ∧ ∀ a, rex_curly_pair_sub (a :: s) = [] ↔ ∃ n, a :: s = curly_pairs n)
    as [H _] by done.
  induction s as [|b t [IH1 IH2]].
  - split.
    + split; [by exists O|done].
    + intros a. split; [done|]. by intros [[|n] Hn].
  - split; [apply IH2|]. intros a.
    change (rex_curly_pair_sub (a :: b :: t))
      with (if bool_decide (a = lbrace ∧ b = rbrace)
            then rex_curly_pair_sub t
            else a :: rex_curly_pair_sub (b :: t)).
    case_bool_decide as Hab.
    + destruct Hab as [-> ->]. rewrite IH1. split.
      * intros [n ->]. by exists (S n).
      * intros [[|n] Hn]; [done|]. simpl in Hn. exists n. by simplify_eq.
    + split; [done|]. intros [[|n] Hn]; [done|]. simpl in Hn.
      destruct Hab. by simplify_eq.
Qed.

Lemma compare_bracket_numbers_same (trans_string src_string : str) :
  str_count lbrace src_string = str_count lbrace trans_string →
  str_count rbrace src_string = str_count rbrace trans_string →
  appends (compare_bracket_numbers [lbrace; rbrace] trans_string src_string)
          (inr true) [].
Proof.
  intros Hl Hr. simpl.
  rewrite !bool_decide_eq_false_2 by (by intros ?).
  apply appends_ret.
Qed.

(** C2 (amended).  [_curly_brackets_balanced] returns true, printing
    nothing, exactly for the strings whose curly brackets, read in order
    with every other character dropped, are a row of "{}" pairs. *)
Theorem curly_brackets_balanced_iff_pairs (to_check : str) :
  appends (_curly_brackets_balanced to_check) (inr true) []
  ↔ ∃ n, rex_reduce_sub to_check = curly_pairs n.
Proof.
  rewrite <- curly_pair_sub_nil_iff. unfold _curly_brackets_balanced. split.
  - intros H. specialize (H []). revert H.
    repeat case_bool_decide; try done.
  - intros E. rewrite E. simpl. apply appends_ret.
Qed.

(** C2 as stated fails on "}{": as many '{' as '}', no nested pair, and
    the check returns false. *)
Lemma curly_brackets_reversed_pair :
  str_count lbrace (py "}{") = str_count rbrace (py "}{")
  ∧ rex_curly_pair_findall (rex_curly_pair_sub (rex_reduce_sub (py "}{"))) = []
  ∧ _curly_brackets_balanced (py "}{") []
    = (inr false, [ErrCurlyNotBalanced (py "}{")]).
Proof. done. Qed.

(** C3 (amended).  Without the flag and with equal numbers of each
    bracket, [_place_holders] compares the names of source and translation
    as lists up to order, every name counted as often as it occurs: it
    returns true and prints nothing when one list rearranges the other, and
    reports the names otherwise. *)
Theorem place_holders_compares_names_up_to_order
    (trans_string src_string : str) (flags : list str) :
  ignore_placeholder_compare ∉ flags →
  str_count lbrace src_string = str_count lbrace trans_string →
  str_count rbrace src_string = str_count rbrace trans_string →
  let org_names := rex_names_findall src_string in
  let trans_names := rex_names_findall trans_string in
  (org_names ≡ₚ trans_names →
     appends (_place_holders trans_string src_string flags) (inr true) [])
  ∧ (¬ org_names ≡ₚ trans_names →
     appends (_place_holders trans_string src_string flags) (inr false)
       [ErrNames org_names trans_names trans_string]).
Proof.
  intros Hflag Hl Hr org_names trans_names. unfold _place_holders.
  rewrite (bool_decide_eq_false_2 _ Hflag).
  split; intros HP.
  - apply appends_bind_silent with (a := true);
      [by apply compare_bracket_numbers_same|].
    simpl. rewrite bool_decide_eq_false_2; [apply appends_ret|].
    intros Hne. apply Hne. by apply sorted_eq_iff.
  - apply appends_bind_silent with (a := true);
      [by apply compare_bracket_numbers_same|].
    simpl. rewrite bool_decide_eq_true_2.
    + apply (appends_bind _ _ () [ErrNames org_names trans_names trans_string]
               (inr false) []); [apply appends_print|apply appends_ret].
    + intros E. apply HP. by apply sorted_eq_iff.
Qed.

Lemma place_holders_compares_names_up_to_order_witness :
  (ignore_placeholder_compare ∉ ([] : list str))
  ∧ str_count lbrace (py "{a} to {b}") = str_count lbrace (py "{b} nach {a}")
  ∧ str_count rbrace (py "{a} to {b}") = str_count rbrace (py "{b} nach {a}")
  ∧ appends (_place_holders (py "{b} nach {a}") (py "{a} to {b}") [])
            (inr true) [].
Proof.
  assert (ignore_placeholder_compare ∉ ([] : list str)) as Hflag
    by apply not_elem_of_nil.
  split; [exact Hflag|]. split; [reflexivity|]. split; [reflexivity|].
  apply (place_holders_compares_names_up_to_order
           (py "{b} nach {a}") (py "{a} to {b}") [] Hflag eq_refl eq_refl).
  vm_compute. apply perm_swap.
Defined.

(** C3 as stated fails on "{a}{a}{b}" against "{a}{b}{b}": the same
    names on both sides as sets, and a finding all the same. *)
Lemma place_holders_counts_repeated_names :
  (ignore_placeholder_compare ∉ ([] : list str))
  ∧ str_count lbrace (py "{a}{a}{b}") = str_count lbrace (py "{a}{b}{b}")
  ∧ str_count rbrace (py "{a}{a}{b}") = str_count rbrace (py "{a}{b}{b}")
  ∧ (∀ name, name ∈ rex_names_findall (py "{a}{a}{b}")
             ↔ name ∈ rex_names_findall (py "{a}{b}{b}"))
  ∧ _place_holders (py "{a}{b}{b}") (py "{a}{a}{b}") [] []
    = (inr false, [ErrNames [py "a"; py "a"; py "b"] [py "a"; py "b"; py "b"]
                            (py "{a}{b}{b}")]).
Proof.
  split; [apply not_elem_of_nil|]. split; [done|]. split; [done|].
  split; [|done].
  intros name.
  change (name ∈ [py "a"; py "a"; py "b"] ↔ name ∈ [py "a"; py "b"; py "b"]).
  rewrite !elem_of_cons. tauto.
Qed.

Lemma returns_ret {A} (a : A) : returns (ret a).
Proof. exists a, []. apply appends_ret. Qed.

Lemma returns_print (m : message) : returns (print m).
Proof. exists (), [m]. apply appends_print. Qed.

Lemma returns_bind {A B} (m : prog A) (k : A → prog B) :
  returns m → (∀ a, returns (k a)) → returns (bind m k).
Proof.
  intros (a & t1 & Hm) Hk. destruct (Hk a) as (b & t2 & Hb).
  exists b, (t1 ++ t2). by eapply appends_bind.
Qed.

Lemma returns_for_loop {A S} (l : list A) (body : S → A → prog S) (s : S) :
  (∀ s x, returns (body s x)) → returns (for_loop l body s).
Proof.
  intros Hbody. revert s. induction l as [|x l IH]; intros s; simpl.
  - apply returns_ret.
  - apply returns_bind; [apply Hbody|apply IH].
Qed.

Lemma returns_for_each {A} (l : list A) (body : A → prog ()) :
  (∀ x, returns (body x)) → returns (for_each l body).
Proof. intros Hbody. by apply returns_for_loop. Qed.

Lemma returns_curly_brackets_balanced (to_check : str) :
  returns (_curly_brackets_balanced to_check).
Proof.
  unfold _curly_brackets_balanced.
  repeat case_bool_decide;
    repeat first [apply returns_ret | apply returns_print
                 | apply returns_bind; [|intros ?]].
Qed.

Lemma returns_other_errors formatter_parse (to_check : str) :
  returns (_other_errors formatter_parse to_check).
Proof.
  unfold _other_errors.
  destruct (formatter_parse to_check);
    repeat first [apply returns_ret | apply returns_print
                 | apply returns_bind; [|intros ?]].
Qed.

Lemma returns_compare_bracket_numbers brackets (trans_string src_string : str) :
  returns (compare_bracket_numbers brackets trans_string src_string).
Proof.
  induction brackets as [|b brackets IH]; simpl; [apply returns_ret|].
  case_bool_decide; [|done].
  apply returns_bind; [apply returns_print|intros ?; apply returns_ret].
Qed.

Lemma returns_place_holders (trans_string src_string : str) fl :
  returns (_place_holders trans_string src_string fl).
Proof.
  unfold _place_holders. case_bool_decide; [apply returns_ret|].
  apply returns_bind; [apply returns_compare_bracket_numbers|].
  intros [|]; simpl; [|apply returns_ret].
  case_bool_decide; [|apply returns_ret].
  apply returns_bind; [apply returns_print|intros ?; apply returns_ret].
Qed.

Lemma returns_pnot (p : prog bool) : returns p → returns (pnot p).
Proof. intros Hp. apply returns_bind; [done|intros ?; apply returns_ret]. Qed.

Lemma returns_por (a b : prog bool) : returns a → returns b → returns (por a b).
Proof.
  intros Ha Hb. apply returns_bind; [done|]. intros [|]; [apply returns_ret|done].
Qed.

Lemma returns_check_syntax_of_entry formatter_parse (entry : POEntry) :
  returns (check_syntax_of_entry formatter_parse entry).
Proof.
  unfold check_syntax_of_entry. destruct (has_plural entry); [apply returns_ret|].
  apply returns_bind.
  - repeat first [apply returns_por | apply returns_pnot].
    + apply returns_curly_brackets_balanced.
    + apply returns_other_errors.
    + apply returns_place_holders.
  - intros [|]; [apply returns_print|apply returns_ret].
Qed.

Lemma returns_check_syntax_of_po_files formatter_parse translated po_files :
  returns (check_syntax_of_po_files formatter_parse translated po_files).
Proof.
  unfold check_syntax_of_po_files.
  apply returns_bind; [apply returns_print|intros _].
  apply returns_bind; [|intros _; apply returns_print].
  apply returns_for_each. intros [po_path pof].
  apply returns_bind; [apply returns_print|intros _].
  apply returns_for_each. intros entry. apply returns_check_syntax_of_entry.
Qed.

(** C7.  For source "Hello {name}" and translation "Bonjour {nom}", a
    string the formatter parses: without the flag
    "ignore-placeholder-compare" [_place_holders] reports the differing
    names and the entry is reported with its source string; with the flag
    the comparison is skipped and nothing is printed for the entry. *)
Theorem hello_bonjour_names (formatter_parse : str → option str)
    (fl : list str) :
  formatter_parse (py "Bonjour {nom}") = None →
  (ignore_placeholder_compare ∉ fl →
     appends (_place_holders (py "Bonjour {nom}") (py "Hello {name}") fl)
       (inr false) [ErrNames [py "name"] [py "nom"] (py "Bonjour {nom}")]
     ∧ appends (check_syntax_of_entry formatter_parse (hello_entry fl))
         (inr ()) [ErrNames [py "name"] [py "nom"] (py "Bonjour {nom}");
                   MsgSourceString (py "Hello {name}")])
  ∧ (ignore_placeholder_compare ∈ fl →
     appends (_place_holders (py "Bonjour {nom}") (py "Hello {name}") fl)
       (inr true) []
     ∧ appends (check_syntax_of_entry formatter_parse (hello_entry fl))
         (inr ()) []).
Proof.
  intros Hparse.
  assert (appends (pnot (_curly_brackets_balanced (py "Bonjour {nom}")))
            (inr false) []) as Hbal.
  { apply (appends_pnot _ true). intros out. by rewrite app_nil_r. }
  assert (appends (pnot (_other_errors formatter_parse (py "Bonjour {nom}")))
            (inr false) []) as Hother.
  { apply (appends_pnot _ true). unfold _other_errors. rewrite Hparse.
    apply appends_ret. }
  split; intros Hflag.
  - assert (appends (_place_holders (py "Bonjour {nom}") (py "Hello {name}") fl)
              (inr false) [ErrNames [py "name"] [py "nom"] (py "Bonjour {nom}")])
      as Hnames.
    { apply (place_holders_compares_names_up_to_order
               (py "Bonjour {nom}") (py "Hello {name}") fl Hflag eq_refl eq_refl).
      change (¬ [py "name"] ≡ₚ [py "nom"]).
      by intros [=]%Permutation_singleton_r. }
    split; [done|].
    unfold check_syntax_of_entry. simpl.
    apply (appends_bind _ _ true
             [ErrNames [py "name"] [py "nom"] (py "Bonjour {nom}")] _
             [MsgSourceString (py "Hello {name}")]); [|apply appends_print].
    apply (appends_por_false _ _ _ [] _ Hbal).
    apply (appends_por_false _ _ _ [] _ Hother).
    by apply (appends_pnot _ false).
  - assert (appends (_place_holders (py "Bonjour {nom}") (py "Hello {name}") fl)
              (inr true) []) as Hskip.
    { unfold _place_holders. rewrite (bool_decide_eq_true_2 _ Hflag).
      apply appends_ret. }
    split; [done|].
    unfold check_syntax_of_entry. simpl.
    apply (appends_bind_silent _ _ false); [|apply appends_ret].
    apply (appends_por_false _ _ _ [] _ Hbal).
    apply (appends_por_false _ _ _ [] _ Hother).
    by apply (appends_pnot _ true).
Qed.

Lemma hello_bonjour_names_witness :
  (λ _ : str, @None str) (py "Bonjour {nom}") = None
  ∧ appends (check_syntax_of_entry (λ _, None) (hello_entry []))
       (inr ()) [ErrNames [py "name"] [py "nom"] (py "Bonjour {nom}");
                 MsgSourceString (py "Hello {name}")]
  ∧ appends (check_syntax_of_entry (λ _, None)
               (hello_entry [ignore_placeholder_compare]))
       (inr ()) [].
Proof.
  split; [reflexivity|]. split.
  - apply (hello_bonjour_names (λ _, None) [] eq_refl).
    apply not_elem_of_nil.
  - apply (hello_bonjour_names (λ _, None) [ignore_placeholder_compare] eq_refl).
    by left.
Defined.

(** C8.  [_curly_brackets_balanced] returns true on "text {} more", false
    on "text { more" (not balanced) and false on "{{}}", reported as
    nested. *)
Theorem curly_brackets_balanced_examples (out : list message) :
  _curly_brackets_balanced (py "text {} more") out = (inr true, out)
  ∧ _curly_brackets_balanced (py "text { more") out
    = (inr false, out ++ [ErrCurlyNotBalanced (py "text { more")])
  ∧ _curly_brackets_balanced (py "{{}}") out
    = (inr false, out ++ [ErrCurlyNested (py "{{}}")]).
Proof. done. Qed.

(** ** The registry of shortcut groups *)

(** C6 (amended).  [get_shortcut_groups] raises its [ValueError] exactly
    when the list of live source strings (not obsolete, with a shortcut
    marker) is no rearrangement of the expected list: that is, when some
    string is live and not expected, or expected and not live, or when a
    live string occurs in more than one entry of the template.  Otherwise
    it returns the groups. *)
Theorem shortcut_groups_drift_iff (is_word : N → bool) (template : POFile) :
  let live := live_strings is_word template in
  let drift := appends (get_shortcut_groups is_word template)
                 (inl (ValueError (sorted expect) (sorted live))) [] in
  (drift ↔ ¬ live ≡ₚ expect)
  ∧ (¬ live ≡ₚ expect
     ↔ ¬ NoDup live ∨ ∃ s, (s ∈ live ∧ s ∉ expect) ∨ (s ∈ expect ∧ s ∉ live))
  ∧ (live ≡ₚ expect ↔
     appends (get_shortcut_groups is_word template) (inr shortcut_groups) []).
Proof.
  intros live drift. split; [|split].
  - apply get_shortcut_groups_raises_iff.
  - rewrite rearranges_expect_iff, <- not_same_elements.
    destruct (decide (NoDup live)); tauto.
  - apply get_shortcut_groups_returns_iff.
Qed.

(** C6 as stated fails on a template in which "&Backup" is the source
    string of two entries: the set of live strings is the expected set, and
    the check raises. *)
Lemma shortcut_groups_drift_on_repeated_string :
  let template := registered_template ++ [simple_entry (py "&Backup") []] in
  (∀ s, s ∈ live_strings ascii_word template ↔ s ∈ expect)
  ∧ get_shortcut_groups ascii_word template []
    = (inl (ValueError (sorted expect)
                       (sorted (live_strings ascii_word template))), []).
Proof.
  split; [|done]. intros s.
  change (s ∈ expect ++ [py "&Backup"] ↔ s ∈ expect).
  rewrite elem_of_app, list_elem_of_singleton. split; [|by left].
  intros [?| ->]; [done|]. by left.
Qed.

(** C4.  On a template with the ten registered source strings
    [get_shortcut_groups] returns two groups that both contain
    "Back In &Time". *)
Theorem shortcut_groups_share_back_in_time :
  get_shortcut_groups ascii_word registered_template []
  = (inr shortcut_groups, [])
  ∧ py "Back In &Time" ∈ members_of shortcut_groups (py "mainwindow")
  ∧ py "Back In &Time" ∈ members_of shortcut_groups (py "manageprofile").
Proof.
  split; [done|]. split.
  - by left.
  - do 5 right. by left.
Qed.

(** Every live source string is a member of a group that
    [get_shortcut_groups] returns. *)
Lemma shortcut_groups_cover (is_word : N → bool) (template : POFile) e :
  appends (get_shortcut_groups is_word template) (inr shortcut_groups) [] →
  e ∈ template → obsolete e = false →
  is_Some (rex_shortcut_letter_search is_word (msgid e)) →
  ∃ g, g ∈ dict_keys shortcut_groups ∧ msgid e ∈ members_of shortcut_groups g.
Proof.
  intros Hr He Hobs Hm.
  apply get_shortcut_groups_returns_iff in Hr.
  assert (msgid e ∈ expect) as Hexp.
  { rewrite <- Hr. unfold live_strings. apply list_elem_of_fmap.
    exists e. split; [done|]. by apply list_elem_of_filter. }
  unfold expect in Hexp. rewrite !elem_of_cons in Hexp.
  destruct Hexp as [->|[->|[->|Hrest]]].
  1-3: exists (py "mainwindow"); split; [by left|];
       change (members_of shortcut_groups (py "mainwindow"))
         with [py "Back In &Time"; py "&Backup"; py "&Restore"; py "&Help"];
       rewrite !elem_of_cons; tauto.
  exists (py "manageprofile"). split; [right; by left|].
  change (members_of shortcut_groups (py "manageprofile"))
    with [py "&General"; py "&Include"; py "&Exclude"; py "&Auto-remove";
          py "&Options"; py "Back In &Time"; py "E&xpert Options"].
  rewrite !elem_of_cons. tauto.
Qed.

(** ** Both passes *)

(** C9.  What a pass returns or raises and what it prints are fixed by
    the entries it is given, whatever was printed before: the placeholder
    pass always returns, the shortcut pass returns or raises its
    [ValueError], and a second run over the same entries, after the first,
    prints the same findings in the same order. *)
Theorem validation_passes_repeat (formatter_parse : str → option str)
    (translated : POEntry → bool) (is_word : N → bool)
    (template : POFile) (po_files : list (str * POFile)) :
  (∃ findings,
     (∀ out, check_syntax_of_po_files formatter_parse translated po_files out
             = (inr (), out ++ findings))
     ∧ (check_syntax_of_po_files formatter_parse translated po_files ;;
        check_syntax_of_po_files formatter_parse translated po_files) []
       = (inr (), findings ++ findings))
  ∧ (∃ outcome findings,
     (∀ out, check_shortcuts is_word template po_files out
             = (outcome, out ++ findings))
     ∧ check_shortcuts is_word template po_files
         (snd (check_shortcuts is_word template po_files []))
       = (outcome, findings ++ findings)).
Proof.
  split.
  - destruct (returns_check_syntax_of_po_files formatter_parse translated po_files)
      as ([] & findings & Hrun).
    exists findings. split; [done|].
    unfold bind. by rewrite !Hrun.
  - destruct (check_shortcuts_spec is_word template po_files) as [Hok Hdrift].
    destruct (decide (live_strings is_word template ≡ₚ expect)) as [HP|HP].
    + eexists _, _. split; [apply (Hok HP)|]. by rewrite !(Hok HP).
    + eexists _, _. split; [apply (Hdrift HP)|]. by rewrite !(Hdrift HP).
Qed.

(** ** Plural forms *)

(** C1 (amended).  The placeholder pass prints nothing for an entry with
    a plural form, whatever the entry holds.  The shortcut pass does not
    look at plural forms: it does on any entries what it does on the same
    entries with their plural forms emptied. *)
Theorem plural_forms_in_both_passes (formatter_parse : str → option str)
    (is_word : N → bool) :
  (∀ entry, has_plural entry = true →
     appends (check_syntax_of_entry formatter_parse entry) (inr ()) [])
  ∧ (∀ (template : POFile) (po_files : list (str * POFile)) out,
       check_shortcuts is_word (without_plurals template)
         (prod_map id without_plurals <$> po_files) out
       = check_shortcuts is_word template po_files out).
Proof.
  split.
  - intros entry Hpl. unfold check_syntax_of_entry. rewrite Hpl.
    apply appends_ret.
  - intros template po_files out.
    destruct (check_shortcuts_spec is_word template po_files) as [Hok Hdrift].
    destruct (check_shortcuts_spec is_word (without_plurals template)
                (prod_map id without_plurals <$> po_files))
      as [Hok' Hdrift'].
    unfold without_plurals in *.
    rewrite live_strings_without_plural in Hok', Hdrift'.
    destruct (decide (live_strings is_word template ≡ₚ expect)) as [HP|HP].
    + rewrite (Hok HP), (Hok' HP). do 2 f_equal.
      rewrite list_fmap_bind. apply list_bind_ext; [|done].
      intros [po_path pof]. simpl.
      by rewrite !group_report_without_plural.
    + by rewrite (Hdrift HP), (Hdrift' HP).
Qed.

Lemma plural_forms_in_both_passes_witness :
  has_plural {| msgid := py "{n} file"; msgstr := py "{n Datei";
                msgid_plural := py "{n} files"; msgstr_plural := [];
                flags := []; obsolete := false |} = true
  ∧ appends (check_syntax_of_entry (λ _, None)
               {| msgid := py "{n} file"; msgstr := py "{n Datei";
                  msgid_plural := py "{n} files"; msgstr_plural := [];
                  flags := []; obsolete := false |}) (inr ()) [].
Proof.
  split; [reflexivity|].
  apply (plural_forms_in_both_passes (λ _, None) ascii_word). reflexivity.
Defined.

(** C1 as stated fails in the shortcut pass: two entries with plural
    forms whose translations both mark the letter S are reported. *)
Lemma plural_entries_reported_by_shortcut_pass :
  let backup := {| msgid := py "&Backup"; msgstr := py "&Sichern";
                   msgid_plural := py "&Backups"; msgstr_plural := [];
                   flags := []; obsolete := false |} in
  let restore := {| msgid := py "&Restore"; msgstr := py "&Setzen";
                    msgid_plural := py "&Restores"; msgstr_plural := [];
                    flags := []; obsolete := false |} in
  has_plural backup = true ∧ has_plural restore = true
  ∧ check_shortcuts ascii_word registered_template
      [(py "de.po", [backup; restore])] []
    = (inr (),
       [MsgPoPath (py "de.po");
        ErrShortcuts (py "de.po") false (py "mainwindow")
          [py "Back In &Time"; py "&Backup"; py "&Restore"; py "&Help"]
          [py "&Sichern"; py "&Setzen"]]).
Proof. done. Qed.

(** ** Shortcut letters *)

Lemma marker_at_cons (is_word : N → bool) a (s : str) i :
  marker_at is_word (a :: s) (S i) ↔ marker_at is_word s i.
Proof. done. Qed.

Lemma search_first_marker (is_word : N → bool) (s : str) :
  (∃ i, marker_at is_word s i) →
  ∃ i c, s !! i = Some amp ∧ s !! S i = Some c ∧ is_word c = true
         ∧ (∀ j, (j < i)%nat → ¬ marker_at is_word s j)
         ∧ rex_shortcut_letter_search is_word s = Some c.
Proof.
  induction s as [|a r IH]; intros [i Hi].
  - by destruct Hi as [? _].
  - destruct r as [|b t].
    { destruct Hi as (_ & c & Hc & _). by destruct i. }
    change (rex_shortcut_letter_search is_word (a :: b :: t))
      with (if bool_decide (a = amp) && is_word b then Some b
            else rex_shortcut_letter_search is_word (b :: t)).
    destruct (bool_decide (a = amp) && is_word b) eqn:Hab.
    + apply andb_true_iff in Hab as [->%bool_decide_eq_true Hb].
      exists O, b. repeat split; try done. intros j Hj. lia.
    + destruct i as [|i].
      { destruct Hi as (Ha & c & Hc & Hw). simpl in Ha, Hc. simplify_eq.
        rewrite bool_decide_eq_true_2 in Hab by done. simpl in Hab. congruence. }
      destruct IH as (i' & c & H1 & H2 & H3 & H4 & H5); [by exists i|].
      exists (S i'), c. repeat split; try done.
      intros [|j] Hj.
      * intros (Ha & c' & Hc' & Hw). simpl in Ha, Hc'. simplify_eq.
        rewrite bool_decide_eq_true_2 in Hab by done. simpl in Hab. congruence.
      * rewrite marker_at_cons. apply H4. lia.
Qed.

Lemma collect_letters_app (is_word : N → bool) (l1 l2 : list str) :
  collect_letters is_word (l1 ++ l2)
  = collect_letters is_word l1 ++ collect_letters is_word l2.
Proof. rewrite !collect_letters_omap. apply omap_app. Qed.

(** C10.  From a translated string with a shortcut marker the letters of
    a group get exactly one letter: the word character after the first '&'
    that is followed by a word character, whatever follows in the string. *)
Theorem one_letter_per_translation (is_word : N → bool) (trans : str) :
  (∃ i, marker_at is_word trans i) →
  ∃ i letter,
    trans !! i = Some amp ∧ trans !! S i = Some letter
    ∧ is_word letter = true
    ∧ (∀ j, (j < i)%nat → ¬ marker_at is_word trans j)
    ∧ rex_shortcut_letter_search is_word trans = Some letter
    ∧ ∀ before after,
        collect_letters is_word (before ++ trans :: after)
        = collect_letters is_word before
          ++ letter :: collect_letters is_word after.
Proof.
  intros Hm.
  destruct (search_first_marker is_word trans Hm)
    as (i & c & H1 & H2 & H3 & H4 & H5).
  exists i, c. repeat split; try done.
  intros before after. rewrite collect_letters_app. f_equal.
  rewrite !collect_letters_omap. simpl. by rewrite H5.
Qed.

Lemma one_letter_per_translation_witness :
  (∃ i, marker_at ascii_word (py "Datei &speichern &unter") i)
  ∧ ∃ i letter,
      py "Datei &speichern &unter" !! i = Some amp
      ∧ py "Datei &speichern &unter" !! S i = Some letter
      ∧ ascii_word letter = true
      ∧ (∀ j, (j < i)%nat → ¬ marker_at ascii_word (py "Datei &speichern &unter") j)
      ∧ rex_shortcut_letter_search ascii_word (py "Datei &speichern &unter")
        = Some letter
      ∧ ∀ before after,
          collect_letters ascii_word
            (before ++ py "Datei &speichern &unter" :: after)
          = collect_letters ascii_word before
            ++ letter :: collect_letters ascii_word after.
Proof.
  assert (∃ i, marker_at ascii_word (py "Datei &speichern &unter") i) as Hm.
  { exists 6%nat. split; [reflexivity|]. exists 115. split; reflexivity. }
  split; [exact Hm|].
  apply (one_letter_per_translation ascii_word _ Hm).
Defined.

(** * Further properties *)

(** ** The placeholder pass, entry by entry *)

(** A check that returns true in silence or false with one error line
    about [trans]. *)
Lemma verdict_curly_brackets_balanced (to_check : str) :
  ∃ b text, appends (_curly_brackets_balanced to_check) (inr b) text
    ∧ ((b = true ∧ text = [])
       ∨ (b = false ∧ ∃ err, text = [err] ∧ is_syntax_error to_check err)).
Proof.
  unfold _curly_brackets_balanced, is_syntax_error.
  repeat case_bool_decide.
  - exists false, [ErrCurlyNested to_check]. split; [|right; eauto 10].
    apply (appends_bind _ _ () [_] _ []); [apply appends_print|apply appends_ret].
  - exists false, [ErrCurlyNotBalanced to_check]. split; [|right; eauto 10].
    apply (appends_bind _ _ () [_] _ []); [apply appends_print|apply appends_ret].
  - exists true, []. split; [apply appends_ret|by left].
Qed.

Lemma verdict_other_errors formatter_parse (to_check : str) :
  ∃ b text, appends (_other_errors formatter_parse to_check) (inr b) text
    ∧ ((b = true ∧ text = [])
       ∨ (b = false ∧ ∃ err, text = [err] ∧ is_syntax_error to_check err)).
Proof.
  unfold _other_errors, is_syntax_error.
  destruct (formatter_parse to_check) as [exc|].
  - exists false, [ErrOther exc to_check]. split; [|right; eauto 10].
    apply (appends_bind _ _ () [_] _ []); [apply appends_print|apply appends_ret].
  - exists true, []. split; [apply appends_ret|by left].
Qed.

(** What [_place_holders] does, case by case. *)
Lemma place_holders_cases (trans_string src_string : str) (fl : list str) :
  let org_names := rex_names_findall src_string in
  let trans_names := rex_names_findall trans_string in
  (ignore_placeholder_compare ∈ fl →
     appends (_place_holders trans_string src_string fl) (inr true) [])
  ∧ (ignore_placeholder_compare ∉ fl →
     str_count lbrace src_string ≠ str_count lbrace trans_string →
     appends (_place_holders trans_string src_string fl) (inr false)
       [ErrBracketNumber lbrace trans_string])
  ∧ (ignore_placeholder_compare ∉ fl →
     str_count lbrace src_string = str_count lbrace trans_string →
     str_count rbrace src_string ≠ str_count rbrace trans_string →
     appends (_place_holders trans_string src_string fl) (inr false)
       [ErrBracketNumber rbrace trans_string])
  ∧ (ignore_placeholder_compare ∉ fl →
     str_count lbrace src_string = str_count lbrace trans_string →
     str_count rbrace src_string = str_count rbrace trans_string →
     ¬ org_names ≡ₚ trans_names →
     appends (_place_holders trans_string src_string fl) (inr false)
       [ErrNames org_names trans_names trans_string])
  ∧ (ignore_placeholder_compare ∉ fl →
     str_count lbrace src_string = str_count lbrace trans_string →
     str_count rbrace src_string = str_count rbrace trans_string →
     org_names ≡ₚ trans_names →
     appends (_place_holders trans_string src_string fl) (inr true) []).
Proof.
  intros org_names trans_names. unfold _place_holders.
  split; [|split; [|split; [|split]]].
  - intros Hflag. rewrite (bool_decide_eq_true_2 _ Hflag). apply appends_ret.
  - intros Hflag Hl. rewrite (bool_decide_eq_false_2 _ Hflag). simpl.
    rewrite (bool_decide_eq_true_2 _ Hl).
    apply (appends_bind _ _ false [ErrBracketNumber lbrace trans_string] _ []);
      [|apply appends_ret].
    apply (appends_bind _ _ () [_] _ []); [apply appends_print|apply appends_ret].
  - intros Hflag Hl Hr. rewrite (bool_decide_eq_false_2 _ Hflag). simpl.
    rewrite (bool_decide_eq_false_2 (_ ≠ _)) by (by intros ?).
    rewrite (bool_decide_eq_true_2 _ Hr).
    apply (appends_bind _ _ false [ErrBracketNumber rbrace trans_string] _ []);
      [|apply appends_ret].
    apply (appends_bind _ _ () [_] _ []); [apply appends_print|apply appends_ret].
  - intros Hflag Hl Hr HP. rewrite (bool_decide_eq_false_2 _ Hflag).
    apply appends_bind_silent with (a := true);
      [by apply compare_bracket_numbers_same|].
    simpl. rewrite bool_decide_eq_true_2.
    + apply (appends_bind _ _ () [_] _ []); [apply appends_print|apply appends_ret].
    + intros E. apply HP. by apply sorted_eq_iff.
  - intros Hflag Hl Hr HP. rewrite (bool_decide_eq_false_2 _ Hflag).
    apply appends_bind_silent with (a := true);
      [by apply compare_bracket_numbers_same|].
    simpl. rewrite bool_decide_eq_false_2; [apply appends_ret|].
    intros Hne. apply Hne. by apply sorted_eq_iff.
Qed.

Lemma verdict_place_holders (trans_string src_string : str) (fl : list str) :
  ∃ b text, appends (_place_holders trans_string src_string fl) (inr b) text
    ∧ ((b = true ∧ text = [])
       ∨ (b = false ∧ ∃ err, text = [err] ∧ is_syntax_error trans_string err)).
Proof.
  destruct (place_holders_cases trans_string src_string fl)
    as (H1 & H2 & H3 & H4 & H5).
  unfold is_syntax_error.
  destruct (decide (ignore_placeholder_compare ∈ fl)) as [Hflag|Hflag].
  { exists true, []. split; [by apply H1|by left]. }
  destruct (decide (str_count lbrace src_string = str_count lbrace trans_string))
    as [Hl|Hl]; [|eexists false, [_]; split; [by apply H2|right; eauto 10]].
  destruct (decide (str_count rbrace src_string = str_count rbrace trans_string))
    as [Hr|Hr]; [|eexists false, [_]; split; [by apply H3|right; eauto 10]].
  destruct (decide (rex_names_findall src_string
                    ≡ₚ rex_names_findall trans_string)) as [HP|HP].
  - exists true, []. split; [by apply H5|by left].
  - eexists false, [_]. split; [by apply H4|right; eauto 10].
Qed.

Lemma check_syntax_of_entry_shape (formatter_parse : str → option str)
    (entry : POEntry) :
  ∃ text,
    appends (check_syntax_of_entry formatter_parse entry) (inr ()) text
    ∧ (text = []
       ∨ ∃ err, text = [err; MsgSourceString (msgid entry)]
                ∧ is_syntax_error (msgstr entry) err).
Proof.
  unfold check_syntax_of_entry. destruct (has_plural entry).
  { exists []. split; [apply appends_ret|by left]. }
  destruct (verdict_curly_brackets_balanced (msgstr entry))
    as (b1 & t1 & Hc1 & [[-> ->]|(-> & e1 & -> & He1)]).
  2:{ exists [e1; MsgSourceString (msgid entry)]. split; [|right; eauto].
      apply (appends_bind _ _ true [e1] _ [MsgSourceString (msgid entry)]);
        [|apply appends_print].
      apply appends_por_true. by apply (appends_pnot _ false). }
  destruct (verdict_other_errors formatter_parse (msgstr entry))
    as (b2 & t2 & Hc2 & [[-> ->]|(-> & e2 & -> & He2)]).
  2:{ exists [e2; MsgSourceString (msgid entry)]. split; [|right; eauto].
      apply (appends_bind _ _ true [e2] _ [MsgSourceString (msgid entry)]);
        [|apply appends_print].
      apply (appends_por_false _ _ _ [] [e2]); [by apply (appends_pnot _ true)|].
      apply appends_por_true. by apply (appends_pnot _ false). }
  destruct (verdict_place_holders (msgstr entry) (msgid entry) (flags entry))
    as (b3 & t3 & Hc3 & [[-> ->]|(-> & e3 & -> & He3)]).
  - exists []. split; [|by left].
    apply (appends_bind_silent _ _ false); [|apply appends_ret].
    apply (appends_por_false _ _ _ [] []); [by apply (appends_pnot _ true)|].
    apply (appends_por_false _ _ _ [] []); [by apply (appends_pnot _ true)|].
    by apply (appends_pnot _ true).
  - exists [e3; MsgSourceString (msgid entry)]. split; [|right; eauto].
    apply (appends_bind _ _ true [e3] _ [MsgSourceString (msgid entry)]);
      [|apply appends_print].
    apply (appends_por_false _ _ _ [] [e3]); [by apply (appends_pnot _ true)|].
    apply (appends_por_false _ _ _ [] [e3]); [by apply (appends_pnot _ true)|].
    by apply (appends_pnot _ false).
Qed.

(** X1.  For an entry without plural forms the placeholder pass runs
    its three checks on the translated string in the order brackets,
    formatter, comparison with the source, and stops at the first that
    fails: it prints the error line of that check and after it the source
    string, and nothing when all three pass.  So an entry gets at most one
    error, about its translated string. *)
Theorem entry_reports_first_failing_check (formatter_parse : str → option str)
    (entry : POEntry) :
  has_plural entry = false →
  let check := check_syntax_of_entry formatter_parse entry in
  let brackets := _curly_brackets_balanced (msgstr entry) in
  let formatter := _other_errors formatter_parse (msgstr entry) in
  let comparison :=
    _place_holders (msgstr entry) (msgid entry) (flags entry) in
  (∀ err, appends brackets (inr false) [err] →
          appends check (inr ()) [err; MsgSourceString (msgid entry)])
  ∧ (∀ err, appends brackets (inr true) [] →
            appends formatter (inr false) [err] →
            appends check (inr ()) [err; MsgSourceString (msgid entry)])
  ∧ (∀ err, appends brackets (inr true) [] →
            appends formatter (inr true) [] →
            appends comparison (inr false) [err] →
            appends check (inr ()) [err; MsgSourceString (msgid entry)])
  ∧ (appends brackets (inr true) [] → appends formatter (inr true) [] →
     appends comparison (inr true) [] → appends check (inr ()) [])
  ∧ ∃ text, appends check (inr ()) text
            ∧ (text = []
               ∨ ∃ err, text = [err; MsgSourceString (msgid entry)]
                        ∧ is_syntax_error (msgstr entry) err).
Proof.
  intros Hpl check brackets formatter comparison.
  split; [|split; [|split; [|split]]].
  - intros err Hb. subst check. unfold check_syntax_of_entry. rewrite Hpl.
    apply (appends_bind _ _ true [err] _ [MsgSourceString (msgid entry)]);
      [|apply appends_print].
    apply appends_por_true. by apply (appends_pnot _ false).
  - intros err Hb Hf. subst check. unfold check_syntax_of_entry. rewrite Hpl.
    apply (appends_bind _ _ true [err] _ [MsgSourceString (msgid entry)]);
      [|apply appends_print].
    apply (appends_por_false _ _ _ [] [err]); [by apply (appends_pnot _ true)|].
    apply appends_por_true. by apply (appends_pnot _ false).
  - intros err Hb Hf Hc. subst check. unfold check_syntax_of_entry.
    rewrite Hpl.
    apply (appends_bind _ _ true [err] _ [MsgSourceString (msgid entry)]);
      [|apply appends_print].
    apply (appends_por_false _ _ _ [] [err]); [by apply (appends_pnot _ true)|].
    apply (appends_por_false _ _ _ [] [err]); [by apply (appends_pnot _ true)|].
    by apply (appends_pnot _ false).
  - intros Hb Hf Hc. subst check. unfold check_syntax_of_entry. rewrite Hpl.
    apply (appends_bind_silent _ _ false); [|apply appends_ret].
    apply (appends_por_false _ _ _ [] []); [by apply (appends_pnot _ true)|].
    apply (appends_por_false _ _ _ [] []); [by apply (appends_pnot _ true)|].
    by apply (appends_pnot _ true).
  - apply check_syntax_of_entry_shape.
Qed.

Lemma entry_reports_first_failing_check_witness :
  let entry := simple_entry (py "{a}") (py "{a") in
  has_plural entry = false
  ∧ appends (_curly_brackets_balanced (msgstr entry)) (inr false)
      [ErrCurlyNotBalanced (py "{a")]
  ∧ appends (_place_holders (msgstr entry) (msgid entry) (flags entry))
      (inr false) [ErrBracketNumber rbrace (py "{a")]
  ∧ appends (check_syntax_of_entry (λ _, None) entry) (inr ())
      [ErrCurlyNotBalanced (py "{a"); MsgSourceString (py "{a}")].
Proof.
  intros entry.
  assert (appends (_curly_brackets_balanced (msgstr entry)) (inr false)
            [ErrCurlyNotBalanced (py "{a")]) as Hb by (by intros out).
  split; [reflexivity|]. split; [exact Hb|]. split; [by intros out|].
  apply (proj1 (entry_reports_first_failing_check (λ _, None) entry eq_refl)).
  exact Hb.
Defined.

(** X2.  [_place_holders] returns true exactly when the entry carries the
    flag "ignore-placeholder-compare", or source and translation have as
    many '{', as many '}' and the same names up to order. *)
Theorem place_holders_true_iff (trans_string src_string : str)
    (fl : list str) :
  (∃ text, appends (_place_holders trans_string src_string fl) (inr true) text)
  ↔ ignore_placeholder_compare ∈ fl
    ∨ (str_count lbrace src_string = str_count lbrace trans_string
       ∧ str_count rbrace src_string = str_count rbrace trans_string
       ∧ rex_names_findall src_string ≡ₚ rex_names_findall trans_string).
Proof.
  destruct (place_holders_cases trans_string src_string fl)
    as (H1 & H2 & H3 & H4 & H5).
  split.
  - intros [text Ht].
    destruct (decide (ignore_placeholder_compare ∈ fl)) as [|Hflag]; [by left|].
    right.
    destruct (decide (str_count lbrace src_string
                      = str_count lbrace trans_string)) as [Hl|Hl].
    2:{ by destruct (appends_det _ _ _ _ _ Ht (H2 Hflag Hl)). }
    destruct (decide (str_count rbrace src_string
                      = str_count rbrace trans_string)) as [Hr|Hr].
    2:{ by destruct (appends_det _ _ _ _ _ Ht (H3 Hflag Hl Hr)). }
    destruct (decide (rex_names_findall src_string
                      ≡ₚ rex_names_findall trans_string)) as [HP|HP]; [done|].
    by destruct (appends_det _ _ _ _ _ Ht (H4 Hflag Hl Hr HP)).
  - intros [Hflag|(Hl & Hr & HP)]; [by eexists; apply H1|].
    destruct (decide (ignore_placeholder_compare ∈ fl)) as [Hflag|Hflag].
    + eexists. by apply H1.
    + eexists. by apply H5.
Qed.

(** X3.  Without the flag, a different number of '{' is reported alone,
    and a different number of '}' is reported when the numbers of '{'
    agree: the names are compared only after both numbers agree. *)
Theorem place_holders_reports_bracket_numbers_first
    (trans_string src_string : str) (fl : list str) :
  ignore_placeholder_compare ∉ fl →
  (str_count lbrace src_string ≠ str_count lbrace trans_string →
     appends (_place_holders trans_string src_string fl) (inr false)
       [ErrBracketNumber lbrace trans_string])
  ∧ (str_count lbrace src_string = str_count lbrace trans_string →
     str_count rbrace src_string ≠ str_count rbrace trans_string →
     appends (_place_holders trans_string src_string fl) (inr false)
       [ErrBracketNumber rbrace trans_string]).
Proof.
  intros Hflag.
  destruct (place_holders_cases trans_string src_string fl)
    as (_ & H2 & H3 & _). split; [by apply H2|by apply H3].
Qed.

Lemma place_holders_reports_bracket_numbers_first_witness :
  (ignore_placeholder_compare ∉ ([] : list str))
  ∧ str_count lbrace (py "{a} and {b}") ≠ str_count lbrace (py "{b} und a}")
  ∧ appends (_place_holders (py "{b} und a}") (py "{a} and {b}") [])
      (inr false) [ErrBracketNumber lbrace (py "{b} und a}")].
Proof.
  assert (ignore_placeholder_compare ∉ ([] : list str)) as Hflag
    by apply not_elem_of_nil.
  assert (str_count lbrace (py "{a} and {b}")
          ≠ str_count lbrace (py "{b} und a}")) as Hl by (by intros [=]).
  split; [exact Hflag|]. split; [exact Hl|].
  apply (place_holders_reports_bracket_numbers_first
           (py "{b} und a}") (py "{a} and {b}") [] Hflag). exact Hl.
Defined.

(** ** Curly brackets and names *)

Lemma balanced_gives_pairs (to_check : str) :
  appends (_curly_brackets_balanced to_check) (inr true) [] →
  ∃ n, rex_reduce_sub to_check = curly_pairs n.
Proof.
  intros H. apply curly_pair_sub_nil_iff.
  specialize (H []). revert H. unfold _curly_brackets_balanced.
  repeat case_bool_decide; try done.
Qed.

Lemma str_count_reduce (c : N) (s : str) :
  c = lbrace ∨ c = rbrace →
  str_count c (rex_reduce_sub s) = str_count c s.
Proof.
  intros Hc. unfold str_count, rex_reduce_sub. f_equal.
  induction s as [|x s IH]; [done|].
  rewrite (filter_cons (λ c, c = lbrace ∨ c = rbrace)).
  rewrite (filter_cons (λ y, y = c) x s).
  destruct (decide (x = lbrace ∨ x = rbrace)) as [Hx|Hx].
  - rewrite (filter_cons (λ y, y = c)). by rewrite IH.
  - rewrite IH. rewrite decide_False; [done|]. intros ->. by apply Hx.
Qed.

Lemma str_count_curly_pairs (n : nat) :
  str_count lbrace (curly_pairs n) = n ∧ str_count rbrace (curly_pairs n) = n.
Proof.
  unfold str_count. induction n as [|n [IHl IHr]]; [done|]. simpl.
  rewrite !filter_cons. simpl. split; congruence.
Qed.

(** X4.  A string that [_curly_brackets_balanced] accepts has as many
    '{' as '}'. *)
Theorem balanced_string_has_equal_bracket_numbers (to_check : str) :
  appends (_curly_brackets_balanced to_check) (inr true) [] →
  str_count lbrace to_check = str_count rbrace to_check.
Proof.
  intros [n Hn]%balanced_gives_pairs.
  rewrite <- (str_count_reduce lbrace), <- (str_count_reduce rbrace) by auto.
  rewrite Hn. destruct (str_count_curly_pairs n) as [-> ->]. done.
Qed.

Lemma balanced_string_has_equal_bracket_numbers_witness :
  appends (_curly_brackets_balanced (py "{a} of {b}")) (inr true) []
  ∧ str_count lbrace (py "{a} of {b}") = str_count rbrace (py "{a} of {b}").
Proof.
  assert (appends (_curly_brackets_balanced (py "{a} of {b}")) (inr true) [])
    as H by (intros out; by rewrite app_nil_r).
  split; [exact H|].
  apply (balanced_string_has_equal_bracket_numbers _ H).
Defined.

Lemma names_scan_free_of (cur : option str) (s : str) (name : str) :
  (∀ acc, cur = Some acc → (rbrace ∉ acc) ∧ (newline ∉ acc)) →
  name ∈ rex_names_scan cur s → (rbrace ∉ name) ∧ (newline ∉ name).
Proof.
  revert cur. induction s as [|c t IH]; intros cur Hcur; simpl.
  - by intros ?%elem_of_nil.
  - destruct cur as [acc|].
    + destruct (Hcur acc eq_refl) as [Hr Hn].
      repeat case_bool_decide.
      * intros [->|Hin]%elem_of_cons; [done|].
        apply (IH None); [by intros ? [=]|done].
      * apply (IH None). by intros ? [=].
      * apply (IH (Some (acc ++ [c]))). intros ? [= <-].
        rewrite !elem_of_app, !list_elem_of_singleton.
        split; intros [?|?]; done.
    + case_bool_decide.
      * apply (IH (Some [])). intros ? [= <-].
        split; apply not_elem_of_nil.
      * apply (IH None). by intros ? [=].
Qed.

(** X5.  No name that [rex_names] extracts contains a '}' or a newline:
    a name ends at the first '}' and a placeholder cannot run over a line
    break. *)
Theorem names_have_no_closing_bracket_or_newline (s name : str) :
  name ∈ rex_names_findall s → (rbrace ∉ name) ∧ (newline ∉ name).
Proof. apply names_scan_free_of. by intros ? [=]. Qed.

Lemma names_have_no_closing_bracket_or_newline_witness :
  py "a{b" ∈ rex_names_findall (py "x {a{b} y")
  ∧ (rbrace ∉ py "a{b") ∧ (newline ∉ py "a{b").
Proof.
  assert (py "a{b" ∈ rex_names_findall (py "x {a{b} y")) as H by (by left).
  split; [exact H|].
  apply (names_have_no_closing_bracket_or_newline _ _ H).
Defined.

Lemma names_scan_count (s : str) :
  newline ∉ s →
  (∀ n, rex_reduce_sub s = curly_pairs n →
        length (rex_names_scan None s) = n)
  ∧ (∀ acc n, rex_reduce_sub s = rbrace :: curly_pairs n →
        length (rex_names_scan (Some acc) s) = S n).
Proof.
  unfold rex_reduce_sub. induction s as [|c t IH]; intros Hnl.
  - split; [by intros [|n]|done].
  - apply not_elem_of_cons in Hnl as [Hc Hnl].
    destruct (IH Hnl) as [IH1 IH2]. rewrite filter_cons.
    destruct (decide (c = lbrace)) as [->|Hcl].
    { rewrite decide_True by auto. split.
      - intros [|n]; [done|]. simpl. intros [= E]. by apply IH2.
      - intros acc n [=]. }
    destruct (decide (c = rbrace)) as [->|Hcr].
    { rewrite decide_True by auto. split.
      - intros [|n]; [done|]. intros [=].
      - intros acc n [= E]. simpl. f_equal. by apply IH1. }
    rewrite decide_False by (by intros [?|?]). split.
    + intros n E. simpl. rewrite bool_decide_eq_false_2 by done. by apply IH1.
    + intros acc n E. simpl. rewrite !bool_decide_eq_false_2 by done.
      by apply IH2.
Qed.

(** X6.  In a string without a newline that [_curly_brackets_balanced]
    accepts, [rex_names] finds one name for every '{'. *)
Theorem balanced_string_has_a_name_per_bracket (s : str) :
  appends (_curly_brackets_balanced s) (inr true) [] →
  newline ∉ s →
  length (rex_names_findall s) = str_count lbrace s.
Proof.
  intros [n Hn]%balanced_gives_pairs Hnl.
  rewrite <- (str_count_reduce lbrace) by auto. rewrite Hn.
  destruct (str_count_curly_pairs n) as [-> _].
  by apply names_scan_count.
Qed.

Lemma balanced_string_has_a_name_per_bracket_witness :
  appends (_curly_brackets_balanced (py "{a} of {b}")) (inr true) []
  ∧ (newline ∉ py "{a} of {b}")
  ∧ length (rex_names_findall (py "{a} of {b}"))
    = str_count lbrace (py "{a} of {b}").
Proof.
  assert (appends (_curly_brackets_balanced (py "{a} of {b}")) (inr true) [])
    as H by (intros out; by rewrite app_nil_r).
  assert (newline ∉ py "{a} of {b}") as Hnl.
  { apply (bool_decide_unpack _). vm_compute. exact I. }
  split; [exact H|]. split; [exact Hnl|].
  apply (balanced_string_has_a_name_per_bracket _ H Hnl).
Defined.

(** ** Shortcut entries and groups *)

Lemma search_gives_marker (is_word : N → bool) (s : str) letter :
  rex_shortcut_letter_search is_word s = Some letter →
  ∃ i, marker_at is_word s i.
Proof.
  induction s as [|a r IH]; [done|].
  destruct r as [|b t]; [done|].
  change (rex_shortcut_letter_search is_word (a :: b :: t))
    with (if bool_decide (a = amp) && is_word b then Some b
          else rex_shortcut_letter_search is_word (b :: t)).
  destruct (bool_decide (a = amp) && is_word b) eqn:Hab.
  - apply andb_true_iff in Hab as [->%bool_decide_eq_true Hb].
    intros _. exists O. split; [done|]. by exists b.
  - intros [i Hi]%IH. exists (S i). by apply marker_at_cons.
Qed.

Lemma search_is_Some_iff (is_word : N → bool) (s : str) :
  is_Some (rex_shortcut_letter_search is_word s)
  ↔ ∃ i, marker_at is_word s i.
Proof.
  split.
  - intros [letter H]. by eapply search_gives_marker.
  - intros Hm. destruct (search_first_marker is_word s Hm)
      as (i & c & _ & _ & _ & _ & H). by exists c.
Qed.

(** X7.  [get_shortcut_entries] goes through the file entry by entry
    and keeps an entry exactly when it is not obsolete and its source string
    has somewhere a '&' directly before a word character: the entries kept
    stand in the order of the file, each as often as it stands there. *)
Theorem shortcut_entries_are_the_marked_ones (is_word : N → bool) :
  get_shortcut_entries is_word [] = []
  ∧ ∀ (entry : POEntry) (rest : POFile),
      (is_shortcut_entry is_word entry →
         get_shortcut_entries is_word (entry :: rest)
         = entry :: get_shortcut_entries is_word rest)
      ∧ (¬ is_shortcut_entry is_word entry →
         get_shortcut_entries is_word (entry :: rest)
         = get_shortcut_entries is_word rest).
Proof.
  split; [done|]. intros entry rest.
  unfold get_shortcut_entries, is_shortcut_entry.
  rewrite filter_cons, <- search_is_Some_iff.
  split; intros H; [by rewrite decide_True|by rewrite decide_False].
Qed.

Lemma shortcut_entries_are_the_marked_ones_witness :
  let backup := simple_entry (py "&Backup") (py "&Sichern") in
  let plain := simple_entry (py "Cancel") (py "Abbrechen") in
  is_shortcut_entry ascii_word backup
  ∧ ¬ is_shortcut_entry ascii_word plain
  ∧ get_shortcut_entries ascii_word [backup; plain; backup] = [backup; backup].
Proof.
  intros backup plain.
  assert (is_shortcut_entry ascii_word backup) as Hb.
  { split; [done|]. exists O. split; [done|]. by exists 66. }
  assert (¬ is_shortcut_entry ascii_word plain) as Hp.
  { intros [_ [i [Hamp _]]].
    do 6 (destruct i as [|i]; [done|]). done. }
  destruct (shortcut_entries_are_the_marked_ones ascii_word) as [Hnil Hcons].
  split; [exact Hb|]. split; [exact Hp|].
  rewrite (proj1 (Hcons backup [plain; backup]) Hb).
  rewrite (proj2 (Hcons plain [backup]) Hp).
  rewrite (proj1 (Hcons backup []) Hb). by rewrite Hnil.
Defined.

(** X8.  When the drift check raises, [check_shortcuts] raises the same
    error before it opens a po file: nothing is printed, for no
    language. *)
Theorem drift_stops_shortcut_pass (is_word : N → bool) (template : POFile)
    (po_files : list (str * POFile)) (e : exn) :
  appends (get_shortcut_groups is_word template) (inl e) [] →
  appends (check_shortcuts is_word template po_files) (inl e) [].
Proof. intros H. unfold check_shortcuts. by apply appends_bind_raise. Qed.

Lemma drift_stops_shortcut_pass_witness :
  appends (get_shortcut_groups ascii_word [simple_entry (py "&New") []])
    (inl (ValueError (sorted expect) [py "&New"])) []
  ∧ appends (check_shortcuts ascii_word [simple_entry (py "&New") []]
               [(py "de.po", [simple_entry (py "&New") (py "&Neu")])])
      (inl (ValueError (sorted expect) [py "&New"])) [].
Proof.
  assert (appends (get_shortcut_groups ascii_word [simple_entry (py "&New") []])
            (inl (ValueError (sorted expect) [py "&New"])) []) as H.
  { intros out. by rewrite app_nil_r. }
  split; [exact H|].
  apply (drift_stops_shortcut_pass ascii_word _ _ _ H).
Defined.

Lemma filter_filter_filter {A} (P Q S : A → Prop)
    `{∀ x, Decision (P x)} `{∀ x, Decision (Q x)} `{∀ x, Decision (S x)}
    (l : list A) :
  (∀ x, Q x → S x → P x) →
  filter Q (filter S (filter P l)) = filter Q (filter S l).
Proof.
  intros HQS. induction l as [|x l IH]; [done|].
  rewrite (filter_cons P), (filter_cons S x l).
  destruct (decide (P x)) as [HPx|HPx].
  - rewrite (filter_cons S).
    destruct (decide (S x)); [|done]. rewrite !(filter_cons Q).
    destruct (decide (Q x)); by rewrite IH.
  - rewrite IH. destruct (decide (S x)) as [HSx|]; [|done].
    rewrite (filter_cons Q). rewrite decide_False; [done|].
    intros HQx. by apply HPx, HQS.
Qed.

Lemma group_report_registered_entries (is_word : N → bool) po_path pof g :
  g ∈ dict_keys shortcut_groups →
  group_report is_word shortcut_groups po_path (registered_entries pof) g
  = group_report is_word shortcut_groups po_path pof g.
Proof.
  intros Hg. unfold group_report.
  assert (group_translations is_word (members_of shortcut_groups g)
            (registered_entries pof)
          = group_translations is_word (members_of shortcut_groups g) pof)
    as E; [|by rewrite E].
  unfold group_translations, get_shortcut_entries, registered_entries.
  f_equal. apply filter_filter_filter.
  intros e Hm [Hobs _]. split; [done|].
  assert (members_of shortcut_groups g ⊆ expect) as Hsub; [|by apply Hsub].
  unfold dict_keys in Hg. simpl in Hg. rewrite !elem_of_cons in Hg.
  destruct Hg as [->|[->|?%elem_of_nil]]; [| |done].
  - apply (bool_decide_unpack _). vm_compute. exact I.
  - apply (bool_decide_unpack _). vm_compute. exact I.
Qed.

(** X10.  The shortcut pass reads only the entries that are not obsolete
    and whose source string is one of the ten registered strings: on po
    files reduced to these entries it does the same. *)
Theorem shortcut_pass_reads_registered_entries_only (is_word : N → bool)
    (template : POFile) (po_files : list (str * POFile))
    (out : list message) :
  check_shortcuts is_word template
    (prod_map id registered_entries <$> po_files) out
  = check_shortcuts is_word template po_files out.
Proof.
  destruct (check_shortcuts_spec is_word template po_files) as [Hok Hdrift].
  destruct (check_shortcuts_spec is_word template
              (prod_map id registered_entries <$> po_files))
    as [Hok' Hdrift'].
  destruct (decide (live_strings is_word template ≡ₚ expect)) as [HP|HP].
  - rewrite (Hok HP), (Hok' HP). do 2 f_equal.
    rewrite list_fmap_bind. apply list_bind_ext; [|done].
    intros [po_path pof]. simpl.
    rewrite !group_report_registered_entries; [done| |].
    + right. by left.
    + by left.
  - by rewrite (Hdrift HP), (Hdrift' HP).
Qed.

Lemma missing_letters_iff (is_word : N → bool) (translations : list str) :
  (length (collect_letters is_word translations) < length translations)%nat
  ↔ ∃ trans, trans ∈ translations
             ∧ rex_shortcut_letter_search is_word trans = None.
Proof.
  rewrite collect_letters_omap.
  induction translations as [|t ts IH]; csimpl.
  - split; [lia|]. by intros (? & ?%elem_of_nil & _).
  - assert (length (omap (rex_shortcut_letter_search is_word) ts) ≤ length ts)%nat
      as Hle.
    { clear. induction ts as [|x xs IHx]; csimpl; [done|].
      destruct (rex_shortcut_letter_search is_word x); csimpl; lia. }
    destruct (rex_shortcut_letter_search is_word t) as [c|] eqn:Ht; csimpl.
    + rewrite <- Nat.succ_lt_mono, IH. split.
      * intros (trans & Hin & Hn). exists trans. split; [by right|done].
      * intros (trans & [->|Hin]%elem_of_cons & Hn); [congruence|eauto].
    + split; [|lia]. intros _. exists t. split; [by left|done].
Qed.

(** X11.  A finding of the shortcut pass names the po file and a group,
    lists the registered source strings of the group and the translations
    that were sorted into it, and says "Maybe missing ones" exactly when
    one of these translations has no shortcut marker. *)
Theorem shortcut_finding_holds_group_and_translations (is_word : N → bool)
    (groups : dict) (po_path : str) (pof : POFile) :
  NoDup (dict_keys groups) →
  ∃ report,
    appends (check_shortcuts_of_po_file is_word groups po_path pof) (inr ())
            (MsgPoPath po_path :: report)
    ∧ ∀ m, m ∈ report →
        ∃ g missing,
          g ∈ dict_keys groups
          ∧ m = ErrShortcuts po_path missing g (members_of groups g)
                  (group_translations is_word (members_of groups g) pof)
          ∧ (missing = true
             ↔ ∃ trans,
                 trans ∈ group_translations is_word (members_of groups g) pof
                 ∧ rex_shortcut_letter_search is_word trans = None).
Proof.
  intros Hnd.
  exists (dict_keys groups ≫= group_report is_word groups po_path pof).
  split; [by apply check_shortcuts_of_po_file_spec|].
  intros m (g & Hm & Hg)%list_elem_of_bind.
  unfold group_report in Hm. simpl in Hm. case_bool_decide as Hdup.
  { by apply elem_of_nil in Hm. }
  apply list_elem_of_singleton in Hm. eexists g, _.
  split; [done|]. split; [done|].
  rewrite bool_decide_eq_true. apply missing_letters_iff.
Qed.

Lemma shortcut_finding_holds_group_and_translations_witness :
  NoDup (dict_keys shortcut_groups)
  ∧ ∃ report,
      appends (check_shortcuts_of_po_file ascii_word shortcut_groups
                 (py "fr.po")
                 [simple_entry (py "&Backup") (py "&Sauvegarder");
                  simple_entry (py "&Restore") (py "Restaurer");
                  simple_entry (py "&Help") (py "&Support")])
              (inr ()) (MsgPoPath (py "fr.po") :: report)
      ∧ ∀ m, m ∈ report →
          ∃ g missing,
            g ∈ dict_keys shortcut_groups
            ∧ m = ErrShortcuts (py "fr.po") missing g
                    (members_of shortcut_groups g)
                    (group_translations ascii_word
                       (members_of shortcut_groups g)
                       [simple_entry (py "&Backup") (py "&Sauvegarder");
                        simple_entry (py "&Restore") (py "Restaurer");
                        simple_entry (py "&Help") (py "&Support")])
            ∧ (missing = true
               ↔ ∃ trans,
                   trans ∈ group_translations ascii_word
                             (members_of shortcut_groups g)
                             [simple_entry (py "&Backup") (py "&Sauvegarder");
                              simple_entry (py "&Restore") (py "Restaurer");
                              simple_entry (py "&Help") (py "&Support")]
                   ∧ rex_shortcut_letter_search ascii_word trans = None).
Proof.
  assert (NoDup (dict_keys shortcut_groups)) as Hnd.
  { apply (bool_decide_unpack _). vm_compute. exact I. }
  split; [exact Hnd|].
  apply (shortcut_finding_holds_group_and_translations ascii_word
           shortcut_groups (py "fr.po") _ Hnd).
Defined.

(** X12.  When [get_shortcut_groups] returns, every entry of the template
    that is not obsolete and has a shortcut marker in its source string
    finds this string in at least one of the groups. *)
Theorem returned_groups_cover_template (is_word : N → bool)
    (template : POFile) (entry : POEntry) :
  appends (get_shortcut_groups is_word template) (inr shortcut_groups) [] →
  entry ∈ template → obsolete entry = false →
  is_Some (rex_shortcut_letter_search is_word (msgid entry)) →
  ∃ g, g ∈ dict_keys shortcut_groups
       ∧ msgid entry ∈ members_of shortcut_groups g.
Proof. apply shortcut_groups_cover. Qed.

Lemma returned_groups_cover_template_witness :
  appends (get_shortcut_groups ascii_word registered_template)
    (inr shortcut_groups) []
  ∧ simple_entry (py "&Include") [] ∈ registered_template
  ∧ obsolete (simple_entry (py "&Include") []) = false
  ∧ is_Some (rex_shortcut_letter_search ascii_word
               (msgid (simple_entry (py "&Include") [])))
  ∧ ∃ g, g ∈ dict_keys shortcut_groups
         ∧ msgid (simple_entry (py "&Include") [])
           ∈ members_of shortcut_groups g.
Proof.
  assert (appends (get_shortcut_groups ascii_word registered_template)
            (inr shortcut_groups) []) as Hr.
  { intros out. by rewrite app_nil_r. }
  assert (simple_entry (py "&Include") [] ∈ registered_template) as Hin.
  { do 4 right. by left. }
  assert (is_Some (rex_shortcut_letter_search ascii_word
                     (msgid (simple_entry (py "&Include") [])))) as Hm.
  { by exists 73. }
  split; [exact Hr|]. split; [exact Hin|]. split; [reflexivity|].
  split; [exact Hm|].
  apply (returned_groups_cover_template ascii_word registered_template
           (simple_entry (py "&Include") []) Hr Hin eq_refl Hm).
Defined.

Lemma live_strings_Permutation (is_word : N → bool) (t1 t2 : POFile) :
  t1 ≡ₚ t2 → live_strings is_word t1 ≡ₚ live_strings is_word t2.
Proof.
  intros HP. unfold live_strings, get_shortcut_entries. by rewrite HP.
Qed.

(** X13.  The drift check does not depend on the order of the entries in
    the template: on a rearranged template [get_shortcut_groups] returns
    the same groups or raises the same error. *)
Theorem drift_check_ignores_template_order (is_word : N → bool)
    (template1 template2 : POFile) (out : list message) :
  template1 ≡ₚ template2 →
  get_shortcut_groups is_word template1 out
  = get_shortcut_groups is_word template2 out.
Proof.
  intros HP%(live_strings_Permutation is_word).
  destruct (get_shortcut_groups_spec is_word template1) as [Hok1 Hd1].
  destruct (get_shortcut_groups_spec is_word template2) as [Hok2 Hd2].
  destruct (decide (live_strings is_word template1 ≡ₚ expect)) as [H1|H1].
  - rewrite (Hok1 H1), Hok2; [done|]. by rewrite <- HP.
  - rewrite (Hd1 H1), Hd2.
    + do 3 f_equal. by apply sorted_eq_iff.
    + by rewrite <- HP.
Qed.

Lemma drift_check_ignores_template_order_witness :
  registered_template ≡ₚ reverse registered_template
  ∧ get_shortcut_groups ascii_word registered_template []
    = get_shortcut_groups ascii_word (reverse registered_template) [].
Proof.
  assert (registered_template ≡ₚ reverse registered_template) as HP
    by (symmetry; apply reverse_Permutation).
  split; [exact HP|].
  apply (drift_check_ignores_template_order ascii_word _ _ [] HP).
Defined.

(** ** The output of the placeholder pass *)

Lemma entry_findings_appended (formatter_parse : str → option str)
    (entry : POEntry) :
  appends (check_syntax_of_entry formatter_parse entry) (inr ())
          (entry_findings formatter_parse entry).
Proof.
  destruct (returns_check_syntax_of_entry formatter_parse entry)
    as ([] & text & H).
  unfold entry_findings. by rewrite (H []).
Qed.

Lemma entry_findings_no_language (formatter_parse : str → option str)
    (entry : POEntry) :
  omap printed_language (entry_findings formatter_parse entry) = [].
Proof.
  destruct (check_syntax_of_entry_shape formatter_parse entry)
    as (text & H & Hshape).
  destruct (appends_det _ _ _ _ _ H
              (entry_findings_appended formatter_parse entry)) as [_ <-].
  destruct Hshape as [->|(err & -> & Herr)]; [done|].
  unfold is_syntax_error in Herr.
  destruct Herr as [->|[->|[[? ->]|[[? ->]|(? & ? & ->)]]]]; done.
Qed.

(** ** dict_as_code *)

Lemma tab_of_spaces (indent_level : Z) :
  tab_of indent_level = replicate (4 * Z.to_nat indent_level) space.
Proof.
  unfold tab_of. induction (Z.to_nat indent_level) as [|k IH]; [done|].
  replace (4 * S k)%nat with (4 + 4 * k)%nat by lia.
  simpl. by rewrite IH.
Qed.

Lemma tab_of_prefix_succ (indent_level : Z) :
  tab_of indent_level `prefix_of` tab_of (indent_level + 1).
Proof.
  rewrite !tab_of_spaces.
  destruct (decide (0 ≤ indent_level)%Z) as [Hn|Hn].
  - replace (Z.to_nat (indent_level + 1)) with (S (Z.to_nat indent_level))
      by lia.
    exists (replicate 4 space). rewrite <- replicate_add. f_equal. lia.
  - replace (Z.to_nat indent_level) with O by lia. apply prefix_nil.
Qed.

(** X15.  Every line that [dict_as_code] gives begins with four spaces
    for each level of [indent_level], the lines of nested dicts too (none
    for a negative level). *)
Theorem dict_as_code_lines_are_indented (a_dict : pydict) (indent_level : Z)
    (line : str) :
  line ∈ dict_as_code a_dict indent_level →
  replicate (4 * Z.to_nat indent_level) space `prefix_of` line.
Proof.
  rewrite <- tab_of_spaces. revert indent_level line.
  induction a_dict using pydict_value_ind
    with (P0 := λ value, ∀ nested, value = VDict nested →
                  ∀ indent_level line,
                    line ∈ dict_as_code nested indent_level →
                    tab_of indent_level `prefix_of` line);
    try done.
  - intros n line. by intros ?%elem_of_nil.
  - intros n line. simpl. rewrite elem_of_app. intros [Hin|Hin]; [|by apply IHa_dict0].
    destruct value as [s|nested|text].
    + apply list_elem_of_singleton in Hin as ->. by apply prefix_app_r.
    + apply elem_of_cons in Hin as [->|Hin]; [by apply prefix_app_r|].
      apply elem_of_app in Hin as [Hin| ->%list_elem_of_singleton];
        [|by apply prefix_app_r].
      etrans; [apply tab_of_prefix_succ|]. by eapply IHa_dict.
    + apply list_elem_of_singleton in Hin as ->. by apply prefix_app_r.
  - intros nested [= <-]. done.
Qed.

Lemma dict_as_code_lines_are_indented_witness :
  let names := DItem (KStr (py "de"))
                 (VDict (DItem (KStr (py "_native")) (VStr (py "Deutsch"))
                        (DItem (KStr (py "en")) (VStr (py "German")) DEmpty)))
                 DEmpty in
  (py "        'en': 'German'," ∈ dict_as_code names 1)
  ∧ replicate 4 space `prefix_of` py "        'en': 'German',".
Proof.
  intros names.
  assert (py "        'en': 'German'," ∈ dict_as_code names 1) as Hin.
  { right. right. by left. }
  split; [exact Hin|].
  apply (dict_as_code_lines_are_indented names 1 _ Hin).
Defined.

(** X16.  [dict_as_code] gives one line for every item, those of nested
    dicts included, and one more line for every nested dict, which closes
    it. *)
Theorem dict_as_code_line_count (a_dict : pydict) (indent_level : Z) :
  length (dict_as_code a_dict indent_level)
  = (count_items a_dict + count_dicts a_dict)%nat.
Proof.
  revert indent_level.
  induction a_dict using pydict_value_ind
    with (P0 := λ value, ∀ nested, value = VDict nested →
                  ∀ indent_level,
                    length (dict_as_code nested indent_level)
                    = (count_items nested + count_dicts nested)%nat);
    try done.
  - intros n. simpl. rewrite length_app, IHa_dict0.
    destruct value as [s|nested|text]; simpl; try lia.
    rewrite length_app, (IHa_dict nested eq_refl). simpl. lia.
  - intros nested [= <-]. done.
Qed.

(** ** The script around the passes *)

Section script_properties.

Variable stem : str → str.
Variable run_ok : list event → list str → bool.

(** The loop of [update_po_language_files]. *)
Lemma language_file_loop (remove : bool) (po_paths : list str)
    (log : list event) :
  ∃ r ran,
    sfor_each po_paths (λ po_path,
      run run_ok (msgmerge_cmd stem po_path) ;;;
      if remove then run run_ok (msgattrib_cmd po_path) else sret ()) log
    = (r, log ++ (Ran <$> ran))
    ∧ ran `prefix_of` language_file_commands stem remove po_paths
    ∧ (r = inr () → ran = language_file_commands stem remove po_paths)
    ∧ (∀ e, r = inl e → ∃ cmd, e = CalledProcessError cmd ∧ last ran = Some cmd)
    ∧ (∀ i cmd, ran !! i = Some cmd →
         run_ok (log ++ (Ran <$> take i ran)) cmd = true
         ↔ (S i < length ran)%nat ∨ r = inr ()).
Proof.
  assert (∀ (c : list str) (ran : list (list str)) (r : script_exn + ())
            (log : list event),
            run_ok log c = true →
            (∀ e, r = inl e → ∃ cmd, e = CalledProcessError cmd
                                     ∧ last ran = Some cmd) →
            (∀ i cmd, ran !! i = Some cmd →
               run_ok ((log ++ [Ran c]) ++ (Ran <$> take i ran)) cmd = true
               ↔ (S i < length ran)%nat ∨ r = inr ()) →
            ∀ i cmd, (c :: ran) !! i = Some cmd →
              run_ok (log ++ (Ran <$> take i (c :: ran))) cmd = true
              ↔ (S i < length (c :: ran))%nat ∨ r = inr ()) as Hstep.
  { clear log. intros c ran r log Hc Hfail Hrest [|i] cmd Hi.
    - simpl in Hi. injection Hi as <-. simpl. rewrite app_nil_r.
      split; [|done]. intros _.
      destruct ran as [|c' ran]; [|left; simpl; lia].
      right. destruct r as [e|[]]; [|done].
      by destruct (Hfail e eq_refl) as (? & _ & ?).
    - simpl in Hi. simpl. rewrite cons_middle, app_assoc.
      rewrite (Hrest i cmd Hi). split; (intros [?|?]; [left; lia|by right]). }
  unfold sfor_each. destruct remove.
  - revert log. induction po_paths as [|p po_paths IH]; intros log.
    { exists (inr ()), []. simpl. rewrite app_nil_r. by repeat split. }
    cbn [sfor]. unfold sbind at 1. unfold sbind at 1. unfold run at 1.
    destruct (run_ok log (msgmerge_cmd stem p)) eqn:Hmerge.
    2:{ exists (inl (CalledProcessError (msgmerge_cmd stem p))),
          [msgmerge_cmd stem p].
        split; [done|]. split; [by eexists|]. split; [done|].
        split; [intros e [= <-]; by eexists|].
        intros [|i] cmd Hi; [|done]. injection Hi as <-. simpl.
        rewrite app_nil_r, Hmerge. split; [done|].
        intros [?|?]; [lia|done]. }
    unfold run at 1.
    destruct (run_ok (log ++ [Ran (msgmerge_cmd stem p)]) (msgattrib_cmd p))
      eqn:Hattrib.
    2:{ exists (inl (CalledProcessError (msgattrib_cmd p))),
          [msgmerge_cmd stem p; msgattrib_cmd p].
        split; [by rewrite <- app_assoc|]. split; [by eexists|].
        split; [done|]. split; [intros e [= <-]; by eexists|].
        intros [|[|i]] cmd Hi; [| |done]; injection Hi as <-; simpl.
        - rewrite app_nil_r, Hmerge. split; [intros _; left; lia|done].
        - rewrite Hattrib. split; [done|]. intros [?|?]; [lia|done]. }
    destruct (IH ((log ++ [Ran (msgmerge_cmd stem p)]) ++ [Ran (msgattrib_cmd p)]))
      as (r & ran & Hrun & Hpre & Hok & Hfail & Hran).
    exists r, (msgmerge_cmd stem p :: msgattrib_cmd p :: ran).
    split; [by rewrite Hrun, <- !app_assoc|].
    split; [by do 2 apply prefix_cons|].
    split; [by intros ->%Hok|]. split.
    { intros e (cmd & -> & Hlast)%Hfail. exists cmd. split; [done|].
      by destruct ran. }
    apply Hstep; [done| |].
    { intros e (cmd & -> & Hlast)%Hfail. exists cmd. split; [done|].
      by destruct ran. }
    by apply Hstep.
  - revert log. induction po_paths as [|p po_paths IH]; intros log.
    { exists (inr ()), []. simpl. rewrite app_nil_r. by repeat split. }
    cbn [sfor]. unfold sbind at 1. unfold sbind at 1. unfold run at 1.
    destruct (run_ok log (msgmerge_cmd stem p)) eqn:Hmerge.
    2:{ exists (inl (CalledProcessError (msgmerge_cmd stem p))),
          [msgmerge_cmd stem p].
        split; [done|]. split; [by eexists|]. split; [done|].
        split; [intros e [= <-]; by eexists|].
        intros [|i] cmd Hi; [|done]. injection Hi as <-. simpl.
        rewrite app_nil_r, Hmerge. split; [done|].
        intros [?|?]; [lia|done]. }
    unfold sret at 1.
    destruct (IH (log ++ [Ran (msgmerge_cmd stem p)]))
      as (r & ran & Hrun & Hpre & Hok & Hfail & Hran).
    exists r, (msgmerge_cmd stem p :: ran).
    split; [by rewrite Hrun, <- !app_assoc|].
    split; [by apply prefix_cons|].
    split; [by intros ->%Hok|]. split.
    { intros e (cmd & -> & Hlast)%Hfail. exists cmd. split; [done|].
      by destruct ran. }
    by apply Hstep.
Qed.

(** X17.  [update_po_language_files] prints its announcement, which is
    the empty string when obsolete entries are kept, and runs for every po
    file, in order, msgmerge and, only when obsolete entries are to be
    removed, msgattrib after it.  A command is run only after all the
    commands before it have succeeded; the function returns when all have
    succeeded, and raises the error of the first command that fails right
    after running it. *)
Theorem language_files_are_merged_in_order (remove_obsolete_entries : bool)
    (po_paths : list str) (log : list event) :
  let announced :=
    log ++ [PrintedUpdate
              (if remove_obsolete_entries
               then py "Update language (po) files and remove obsolete entries"
               else [])] in
  ∃ r ran,
    update_po_language_files stem run_ok remove_obsolete_entries po_paths log
    = (r, announced ++ (Ran <$> ran))
    ∧ ran `prefix_of`
        language_file_commands stem remove_obsolete_entries po_paths
    ∧ (r = inr () →
       ran = language_file_commands stem remove_obsolete_entries po_paths)
    ∧ (∀ e, r = inl e →
         ∃ cmd, e = CalledProcessError cmd ∧ last ran = Some cmd)
    ∧ (∀ i cmd, ran !! i = Some cmd →
         run_ok (announced ++ (Ran <$> take i ran)) cmd = true
         ↔ (S i < length ran)%nat ∨ r = inr ()).
Proof.
  intros announced.
  unfold update_po_language_files. unfold sbind at 1. unfold emit.
  destruct (language_file_loop remove_obsolete_entries po_paths
              (log ++ [PrintedUpdate
                         (if remove_obsolete_entries
                          then py "Update language (po) files"
                               ++ py " and remove obsolete entries"
                          else [])]))
    as (r & ran & Hrun & Hrest).
  exists r, ran.
  assert (log ++ [PrintedUpdate
                    (if remove_obsolete_entries
                     then py "Update language (po) files"
                          ++ py " and remove obsolete entries"
                     else [])] = announced) as E
    by (by destruct remove_obsolete_entries).
  rewrite E in Hrun, Hrest. done.
Qed.

End script_properties.

Lemma language_files_are_merged_in_order_witness :
  let stem := λ p : str, take 2 (drop 10 p) in
  let run_ok := λ (log : list event) (cmd : list str),
                  bool_decide (cmd !! 0%nat = Some (py "msgmerge")) in
  let de := py "common/po/de.po" in
  update_po_language_files stem run_ok true [de; py "common/po/fr.po"] []
  = (inl (CalledProcessError (msgattrib_cmd de)),
     [PrintedUpdate (py "Update language (po) files and remove obsolete entries");
      Ran (msgmerge_cmd stem de); Ran (msgattrib_cmd de)])
  ∧ ∃ r ran,
      update_po_language_files stem run_ok true [de; py "common/po/fr.po"] []
      = (r, [PrintedUpdate
               (py "Update language (po) files and remove obsolete entries")]
            ++ (Ran <$> ran))
      ∧ ∀ e, r = inl e →
          ∃ cmd, e = CalledProcessError cmd ∧ last ran = Some cmd.
Proof.
  intros stem run_ok de. split; [reflexivity|].
  destruct (language_files_are_merged_in_order stem run_ok true
              [de; py "common/po/fr.po"] [])
    as (r & ran & Hrun & _ & _ & Hfail & _).
  exists r, ran. split; [exact Hrun|exact Hfail].
Defined.

Lemma sreturns_ret {A} (a : A) : sreturns (sret a).
Proof. intros log. by exists a, log. Qed.

Lemma sreturns_emit (ev : event) : sreturns (emit ev).
Proof. intros log. by eexists (), _. Qed.

Lemma sreturns_bind {A B} (m : script A) (k : A → script B) :
  sreturns m → (∀ a, sreturns (k a)) → sreturns (sbind m k).
Proof.
  intros Hm Hk log. unfold sbind.
  destruct (Hm log) as (a & log' & ->). apply Hk.
Qed.

Lemma sreturns_for {A S} (l : list A) (body : S → A → script S) (s : S) :
  (∀ s x, sreturns (body s x)) → sreturns (sfor l body s).
Proof.
  intros Hbody. revert s. induction l as [|x l IH]; intros s; simpl.
  - apply sreturns_ret.
  - apply sreturns_bind; [apply Hbody|apply IH].
Qed.

Lemma sexits_raise {A} (e : script_exn) : sexits (sraise (A:=A) e) e.
Proof. intros log. by exists log. Qed.

Lemma sexits_bind {A B} (m : script A) (k : A → script B) e :
  sexits m e → sexits (sbind m k) e.
Proof. intros Hm log. unfold sbind. destruct (Hm log) as (log' & ->). eauto. Qed.

Lemma sexits_after {A B} (m : script A) (k : A → script B) e :
  sreturns m → (∀ a, sexits (k a) e) → sexits (sbind m k) e.
Proof.
  intros Hm Hk log. unfold sbind.
  destruct (Hm log) as (a & log' & ->). apply Hk.
Qed.

Lemma check_existence_spec (path_exists : str → bool) (log : list event) :
  check_existence path_exists log
  = (if path_exists local_dir
     then if path_exists template_po then inr ()
          else inl (FileNotFoundError template_po)
     else inl (FileNotFoundError local_dir), log).
Proof.
  unfold check_existence, sfor_each. simpl. unfold sbind.
  destruct (path_exists local_dir); [|done].
  by destruct (path_exists template_po).
Qed.

Lemma sreturns_update_po_language_files (stem : str → str)
    (run_ok : list event → list str → bool) remove po_paths :
  (∀ log cmd, run_ok log cmd = true) →
  sreturns (update_po_language_files stem run_ok remove po_paths).
Proof.
  intros Hok.
  assert (∀ cmd, sreturns (run run_ok cmd)) as Hrun.
  { intros cmd log. unfold run. rewrite Hok. by eexists (), _. }
  unfold update_po_language_files.
  apply sreturns_bind; [apply sreturns_emit|intros _].
  apply sreturns_for. intros _ po_path.
  apply sreturns_bind; [apply Hrun|intros _].
  destruct remove; [apply Hrun|apply sreturns_ret].
Qed.

Section main_properties.

Variable stem : str → str.
Variable run_ok : list event → list str → bool.
Variable path_exists : str → bool.
Variable update_po_template : script ().
Variable create_languages_file : script ().
Variable update_from_weblate : script ().
Variable run_check_syntax_of_po_files : script ().
Variable run_check_shortcuts : script ().
Variable po_paths : list str.

(** X19.  When both paths exist and none of the words source, weblate,
    shortcuts and syntax is among the arguments, [main] runs nothing: it
    prints the usage text and exits with status 1. *)
Theorem main_without_keyword_prints_usage (argv : list str)
    (log : list event) :
  path_exists local_dir = true → path_exists template_po = true →
  ¬ has_keyword argv →
  main stem run_ok path_exists update_po_template create_languages_file
    update_from_weblate run_check_syntax_of_po_files run_check_shortcuts
    po_paths argv log
  = (inl (SystemExit (Some 1%Z)), log ++ [PrintedUsage]).
Proof.
  intros Hdir Htpl Hkey. unfold has_keyword in Hkey.
  unfold main. unfold sbind at 1. rewrite check_existence_spec, Hdir, Htpl.
  rewrite !bool_decide_eq_false_2 by tauto. done.
Qed.

(** X20.  When both paths exist, one of the four keywords is among the
    arguments, every command succeeds and the functions that are called
    return, [main] ends with [sys.exit()], that is with status 0, whatever
    else the arguments hold. *)
Theorem main_with_keyword_exits_with_success (argv : list str) :
  path_exists local_dir = true → path_exists template_po = true →
  (∀ log cmd, run_ok log cmd = true) →
  sreturns update_po_template → sreturns create_languages_file →
  sreturns update_from_weblate → sreturns run_check_syntax_of_po_files →
  sreturns run_check_shortcuts →
  has_keyword argv →
  sexits (main stem run_ok path_exists update_po_template
            create_languages_file update_from_weblate
            run_check_syntax_of_po_files run_check_shortcuts po_paths argv)
         (SystemExit None).
Proof.
  intros Hdir Htpl Hok Htemplate Hlang Hweblate Hsyntax Hshortcuts Hkey.
  unfold main, sys_exit.
  apply sexits_after.
  { intros log. rewrite check_existence_spec, Hdir, Htpl. by eexists (), _. }
  intros _. case_bool_decide as Hsource.
  { apply sexits_bind.
    repeat first
      [ apply sexits_raise
      | apply sexits_after;
        [first [done | apply sreturns_emit
               | by apply sreturns_update_po_language_files]|intros _] ]. }
  apply sexits_after; [apply sreturns_ret|intros _].
  case_bool_decide as Hwebl.
  { apply sexits_bind.
    repeat first
      [ apply sexits_raise
      | apply sexits_after; [first [done | apply sreturns_emit]|intros _] ]. }
  apply sexits_after; [apply sreturns_ret|intros _].
  case_bool_decide as Hshort.
  { apply sexits_bind.
    apply sexits_after; [done|intros _]. apply sexits_raise. }
  apply sexits_after; [apply sreturns_ret|intros _].
  case_bool_decide as Hsyn.
  { apply sexits_bind.
    apply sexits_after; [done|intros _]. apply sexits_raise. }
  unfold has_keyword in Hkey. tauto.
Qed.

End main_properties.

Lemma main_without_keyword_prints_usage_witness :
  let argv := [py "update_language_files.py"; py "shortcut"] in
  ¬ has_keyword argv
  ∧ main (λ p, p) (λ _ _, true) (λ _, true) (sret ()) (sret ()) (sret ())
      (sret ()) (sret ()) [] argv []
    = (inl (SystemExit (Some 1%Z)), [PrintedUsage]).
Proof.
  intros argv.
  assert (¬ has_keyword argv) as Hkey.
  { unfold has_keyword, argv. rewrite !elem_of_cons.
    intros [H|[H|[H|H]]]; destruct H as [H|[H|H%elem_of_nil]]; done. }
  split; [exact Hkey|].
  apply (main_without_keyword_prints_usage (λ p, p) (λ _ _, true) (λ _, true)
           (sret ()) (sret ()) (sret ()) (sret ()) (sret ()) [] argv []
           eq_refl eq_refl Hkey).
Defined.

Lemma main_with_keyword_exits_with_success_witness :
  let argv := [py "update_language_files.py"; py "syntax"; py "weblate"] in
  has_keyword argv
  ∧ sexits (main (λ p, p) (λ _ _, true) (λ _, true) (sret ()) (sret ())
              (sret ()) (sret ()) (sret ()) [] argv)
           (SystemExit None).
Proof.
  intros argv.
  assert (has_keyword argv) as Hkey.
  { right. left. do 2 right. by left. }
  split; [exact Hkey|].
  apply (main_with_keyword_exits_with_success (λ p, p) (λ _ _, true)
           (λ _, true) (sret ()) (sret ()) (sret ()) (sret ()) (sret ()) []
           argv eq_refl eq_refl (λ _ _, eq_refl)
           (sreturns_ret ()) (sreturns_ret ()) (sreturns_ret ())
           (sreturns_ret ()) (sreturns_ret ()) Hkey).
Defined.


(** ** Completeness of the translations *)

Lemma lookupitem_setitem_eq {V} (d : list (str * V)) key value :
  lookupitem (setitem d key value) key = Some value.
Proof.
  induction d as [|[k v] d IH]; simpl.
  - by rewrite decide_True.
  - case_decide as E; simpl.
    + by rewrite decide_True.
    + by rewrite decide_False.
Qed.

Lemma lookupitem_setitem_ne {V} (d : list (str * V)) key key' value :
  key ≠ key' →
  lookupitem (setitem d key value) key' = lookupitem d key'.
Proof.
  intros Hne. induction d as [|[k v] d IH]; simpl.
  - by rewrite decide_False.
  - case_decide as E; simpl.
    + subst k. by rewrite !decide_False.
    + case_decide; [done|apply IH].
Qed.

Lemma keys_setitem {V} (d : list (str * V)) key value :
  (setitem d key value).*1
  = if decide (key ∈ d.*1) then d.*1 else d.*1 ++ [key].
Proof.
  induction d as [|[k v] d IH].
  - destruct (decide (key ∈ ([] : list (str * V)).*1))
      as [H%elem_of_nil|]; done.
  - cbn [setitem]. destruct (decide (k = key)) as [->|E].
    + rewrite decide_True; [done|by left].
    + rewrite fmap_cons, IH. cbn [fst].
      destruct (decide (key ∈ d.*1)) as [Hin|Hin].
      * rewrite decide_True; [done|by right].
      * rewrite decide_False; [done|].
        intros [->|?]%elem_of_cons; done.
Qed.

Lemma NoDup_keys_setitem {V} (d : list (str * V)) key value :
  NoDup d.*1 → NoDup (setitem d key value).*1.
Proof.
  intros Hnd. rewrite keys_setitem. case_decide; [done|].
  apply NoDup_app. split; [done|]. split; [|apply NoDup_singleton].
  intros x Hx ->%list_elem_of_singleton. done.
Qed.

Lemma elem_of_keys_setitem {V} (d : list (str * V)) key value k :
  k ∈ (setitem d key value).*1 ↔ k = key ∨ k ∈ d.*1.
Proof.
  rewrite keys_setitem. case_decide.
  - split; [auto|]. by intros [->|?].
  - rewrite elem_of_app, list_elem_of_singleton. tauto.
Qed.

Section completeness.

Variable stem : str → str.
Variable percent_translated : POFile → Z.

Local Abbreviation filled := (filled_dict stem percent_translated).

Lemma completeness_loop (po_files : list (str * POFile)) result log :
  sfor po_files (λ result '(po_path, pof),
    let result := setitem result (stem po_path) (percent_translated pof) in
    emit (Saved po_path) ;;;
    sret result) result log
  = (inr (filled result po_files), log ++ (Saved <$> po_files.*1)).
Proof.
  revert result log.
  induction po_files as [|[p pof] po_files IH]; intros result log; simpl.
  - by rewrite app_nil_r.
  - unfold sbind at 1. unfold sbind at 1. unfold emit at 1. unfold sret at 1.
    rewrite IH. by rewrite <- app_assoc.
Qed.

Lemma filled_keys (po_files : list (str * POFile)) result :
  (NoDup result.*1 → NoDup (filled result po_files).*1)
  ∧ (∀ k, k ∈ (filled result po_files).*1
          ↔ k ∈ result.*1 ∨ k ∈ stem <$> po_files.*1).
Proof.
  revert result.
  induction po_files as [|[p pof] po_files IH]; intros result; simpl.
  - split; [done|]. intros k. rewrite elem_of_nil. tauto.
  - destruct (IH (setitem result (stem p) (percent_translated pof)))
      as [IH1 IH2]. split.
    + intros Hnd. by apply IH1, NoDup_keys_setitem.
    + intros k. rewrite IH2, elem_of_keys_setitem, elem_of_cons. tauto.
Qed.

Lemma filled_lookup_other (po_files : list (str * POFile)) result k :
  k ∉ stem <$> po_files.*1 →
  lookupitem (filled result po_files) k = lookupitem result k.
Proof.
  revert result.
  induction po_files as [|[p pof] po_files IH]; intros result Hk; [done|].
  simpl in *. apply not_elem_of_cons in Hk as [Hne Hk].
  rewrite IH by done. by apply lookupitem_setitem_ne.
Qed.

Lemma completeness_dict_shape
    (po_files : list (str * POFile)) (log : list event) :
  ∃ result,
    create_completeness_dict stem percent_translated po_files log
    = (inr result, log ++ PrintedCalculate :: (Saved <$> po_files.*1))
    ∧ lookupitem result (py "en") = Some 100%Z
    ∧ NoDup result.*1
    ∧ (∀ k, k ∈ result.*1 ↔ k = py "en" ∨ k ∈ stem <$> po_files.*1)
    ∧ (∀ before po_path pof after,
         po_files = before ++ (po_path, pof) :: after →
         stem po_path ≠ py "en" →
         stem po_path ∉ stem <$> after.*1 →
         lookupitem result (stem po_path) = Some (percent_translated pof)).
Proof.
  exists (setitem (filled [] po_files) (py "en") 100%Z).
  destruct (filled_keys po_files []) as [Hnd Hkeys].
  split; [|split; [|split; [|split]]].
  - unfold create_completeness_dict. unfold sbind at 1. unfold emit at 1.
    unfold sbind at 1. rewrite completeness_loop. unfold sret.
    by rewrite <- app_assoc.
  - apply lookupitem_setitem_eq.
  - apply NoDup_keys_setitem, Hnd. constructor.
  - intros k. rewrite elem_of_keys_setitem, Hkeys. simpl.
    rewrite elem_of_nil. tauto.
  - intros before p pof after -> Hen Hafter.
    rewrite lookupitem_setitem_ne by done.
    unfold filled_dict. rewrite foldl_app. simpl.
    fold (filled [] before).
    fold (filled (setitem (filled [] before) (stem p) (percent_translated pof))
            after).
    rewrite filled_lookup_other by done.
    apply lookupitem_setitem_eq.
Qed.


End completeness.


Lemma completeness_classes (compl : list Z) :
  length compl
  = (length (filter (λ val, (val >= 99)%Z) compl)
     + length (filter (λ val, (90 <= val < 99)%Z) compl)
     + length (filter (λ val, (50 <= val <= 89)%Z) compl)
     + length (filter (λ val, (val < 50)%Z) compl))%nat.
Proof.
  induction compl as [|val compl IH]; [done|].
  rewrite !filter_cons. simpl. rewrite IH.
  repeat case_decide; simpl; lia.
Qed.

Lemma list_remove_length (x : Z) (l l' : list Z) :
  list_remove x l = Some l' → length l = S (length l').
Proof.
  revert l'. induction l as [|y l IH]; intros l'; simpl; [done|].
  case_decide; [by intros [= ->]|].
  destruct (list_remove x l) as [r|]; simpl; [|done].
  intros [= <-]. simpl. f_equal. by apply IH.
Qed.

Lemma list_remove_None (x : Z) (l : list Z) :
  list_remove x l = None ↔ x ∉ l.
Proof.
  induction l as [|y l IH]; simpl.
  - split; [intros _; apply not_elem_of_nil|done].
  - case_decide as E.
    + subst y. split; [done|]. intros H. destruct H. by left.
    + rewrite fmap_None, IH, not_elem_of_cons. split; [by split|by intros [_ ?]].
Qed.

(** X22.  When the statistics are computed, every language other than
    English is counted in exactly one of the four classes (99 and more,
    90 to 98, 50 to 89, less than 50), and [n] is the number of keys of
    the dict less one. *)
Theorem statistic_classes_add_up (round_mean : Z → nat → Z)
    (compl_dict : list (str * Z)) (st : statistic) :
  completeness_statistic round_mean compl_dict = inr st →
  stat_n st
  = (stat_99_100 st + stat_90_98 st + stat_50_89 st + stat_lt50 st)%nat
  ∧ length compl_dict = S (stat_n st).
Proof.
  unfold completeness_statistic.
  destruct (list_remove 100%Z compl_dict.*2) as [compl|] eqn:Hrm; [|done].
  case_decide; [done|]. intros [= <-]. simpl.
  split; [apply completeness_classes|].
  apply list_remove_length in Hrm. by rewrite length_fmap in Hrm.
Qed.

Lemma statistic_classes_add_up_witness :
  let compl_dict := [(py "de", 99%Z); (py "fr", 89%Z); (py "en", 100%Z);
                     (py "it", 100%Z); (py "ja", 12%Z)] in
  let round_mean := λ (s : Z) (n : nat), (s `div` Z.of_nat n)%Z in
  ∃ st, completeness_statistic round_mean compl_dict = inr st
        ∧ stat_n st = 4%nat
        ∧ stat_n st
          = (stat_99_100 st + stat_90_98 st + stat_50_89 st + stat_lt50 st)%nat.
Proof.
  intros compl_dict round_mean.
  eexists. split; [reflexivity|]. split; [reflexivity|].
  apply (statistic_classes_add_up round_mean compl_dict _ eq_refl).
Defined.

(** X23.  On the dict of [create_completeness_dict] the statistics never
    miss the 100 of English; they fail with a division by zero exactly
    when there is no po file with another stem than "en", and otherwise
    [n] is the number of different stems other than "en". *)
Theorem statistic_of_completeness_dict (stem : str → str)
    (percent_translated : POFile → Z) (round_mean : Z → nat → Z)
    (po_files : list (str * POFile)) (log log' : list event)
    (compl_dict : list (str * Z)) :
  create_completeness_dict stem percent_translated po_files log
  = (inr compl_dict, log') →
  let others := remove_dups (filter (λ s, s ≠ py "en") (stem <$> po_files.*1)) in
  completeness_statistic round_mean compl_dict ≠ inl RemoveValueError
  ∧ (completeness_statistic round_mean compl_dict = inl ZeroDivisionError
     ↔ others = [])
  ∧ (∀ st, completeness_statistic round_mean compl_dict = inr st →
           stat_n st = length others).
Proof.
  intros Hrun others.
  destruct (completeness_dict_shape stem percent_translated po_files log)
    as (result & Hrun' & Hen & Hnd & Hkeys & _).
  rewrite Hrun in Hrun'. injection Hrun' as <- _.
  assert (compl_dict.*1 ≡ₚ py "en" :: others) as Hperm.
  { apply NoDup_Permutation; [done| |].
    - apply NoDup_cons. split; [|apply NoDup_remove_dups].
      unfold others. rewrite elem_of_remove_dups, list_elem_of_filter. tauto.
    - intros k. rewrite Hkeys, elem_of_cons. unfold others.
      rewrite elem_of_remove_dups, list_elem_of_filter.
      destruct (decide (k = py "en")); tauto. }
  assert (length compl_dict = S (length others)) as Hlen.
  { rewrite <- (length_fmap fst), Hperm. done. }
  assert (100%Z ∈ compl_dict.*2) as H100.
  { clear -Hen. induction compl_dict as [|[k v] d IH]; simpl in *; [done|].
    case_decide; [injection Hen as ->; by left|right; auto]. }
  unfold completeness_statistic.
  destruct (list_remove 100%Z compl_dict.*2) as [compl|] eqn:Hrm.
  2:{ by apply list_remove_None in Hrm. }
  apply list_remove_length in Hrm. rewrite length_fmap, Hlen in Hrm.
  injection Hrm as Hrm.
  destruct (decide (length compl = 0%nat)) as [E|E].
  - split; [by intros [=]|]. split; [|by intros st [=]].
    split; [|done]. intros _. apply length_zero_iff_nil. congruence.
  - split; [by intros [=]|]. split.
    + split; [by intros [=]|]. intros Ho. rewrite Ho in Hrm. done.
    + intros st [= <-]. simpl. congruence.
Qed.

Lemma statistic_of_completeness_dict_witness :
  let po_files := [(py "common/po/de.po", [simple_entry (py "a") (py "b")]);
                   (py "common/po/en.po", []);
                   (py "common/po/fr.po", [])] in
  let stem := λ p : str, take 2 (drop 10 p) in
  let percent := λ pof : POFile, if bool_decide (pof = []) then 100%Z else 40%Z in
  let round_mean := λ (s : Z) (n : nat), (s `div` Z.of_nat n)%Z in
  let compl_dict := [(py "de", 40%Z); (py "en", 100%Z); (py "fr", 100%Z)] in
  create_completeness_dict stem percent po_files []
  = (inr compl_dict,
     [PrintedCalculate; Saved (py "common/po/de.po");
      Saved (py "common/po/en.po"); Saved (py "common/po/fr.po")])
  ∧ ∀ st, completeness_statistic round_mean compl_dict = inr st →
          stat_n st = 2%nat.
Proof.
  intros po_files stem percent round_mean compl_dict.
  assert (create_completeness_dict stem percent po_files []
          = (inr compl_dict,
             [PrintedCalculate; Saved (py "common/po/de.po");
              Saved (py "common/po/en.po"); Saved (py "common/po/fr.po")]))
    as Hrun by reflexivity.
  split; [exact Hrun|].
  apply (statistic_of_completeness_dict stem percent round_mean po_files
           [] _ compl_dict Hrun).
Defined.

(** ** The names of the languages *)

Lemma lookupitem_Some_key {V} (d : list (str * V)) key value :
  lookupitem d key = Some value → key ∈ d.*1.
Proof.
  induction d as [|[k v] d IH]; simpl; [done|].
  rewrite elem_of_cons. case_decide as E; [by left|].
  intros H. right. by apply IH.
Qed.

Lemma keys_setitem_present {V} (d : list (str * V)) key value :
  key ∈ d.*1 → (setitem d key value).*1 = d.*1.
Proof. intros Hin. rewrite keys_setitem. by rewrite decide_True. Qed.

Lemma sublist_strongly_sorted (l1 l2 : list str) :
  l1 `sublist_of` l2 → StronglySorted str_lexle l2 →
  StronglySorted str_lexle l1.
Proof.
  induction 1 as [|x l1 l2 Hsub IH|x l1 l2 Hsub IH]; [done| |].
  - intros [Hs Hall]%StronglySorted_inv. constructor; [by apply IH|].
    rewrite Forall_forall in *. intros y Hy. apply Hall.
    by eapply elem_of_sublist.
  - intros [Hs Hall]%StronglySorted_inv. by apply IH.
Qed.

Section language_names_properties.

Variable locale : Type.
Variable locale_parse : str → script_exn + locale.
Variable get_display_name : locale → str → script_exn + option str.

(** The loop [for foreign in language_codes] for one language. *)
Lemma names_of_one_language (lang : locale) (code : str) (foreigns : list str)
    (result result' : names_dict) (names : names_of_language)
    (log log' : list event) :
  sfor foreigns (λ result foreign,
    name <~ call (get_display_name lang foreign) ;;;
    set_name result code foreign name) result log = (inr result', log') →
  lookupitem result code = Some names →
  log' = log ∧ result'.*1 = result.*1
  ∧ (∀ c, c ≠ code → lookupitem result' c = lookupitem result c)
  ∧ ∃ names',
      lookupitem result' code = Some names'
      ∧ (∀ foreign, foreign ∈ foreigns →
           ∃ name, get_display_name lang foreign = inr name
                   ∧ lookupitem names' foreign = Some name)
      ∧ (∀ k, k ∉ foreigns → lookupitem names' k = lookupitem names k).
Proof.
  revert result names log.
  induction foreigns as [|f fs IH]; intros result names log.
  - intros [= <- <-] Hnames. repeat split; try done.
    exists names. split; [done|]. split; [|done].
    by intros ? ?%elem_of_nil.
  - cbn [sfor]. unfold sbind at 1. unfold sbind at 1. unfold call at 1.
    destruct (get_display_name lang f) as [e|name] eqn:Hname; [done|].
    intros Hrun Hnames. unfold set_name at 1 in Hrun. rewrite Hnames in Hrun.
    unfold sret at 1 in Hrun.
    apply (IH _ (setitem names f name)) in Hrun as
      (-> & Hkeys & Hother & names' & Hcode & Hfs & Hrest);
      [|apply lookupitem_setitem_eq].
    split; [done|]. split.
    { rewrite Hkeys. apply keys_setitem_present.
      by eapply lookupitem_Some_key. }
    split.
    { intros c Hc. rewrite Hother by done.
      by apply lookupitem_setitem_ne. }
    exists names'. split; [done|]. split.
    + intros foreign [->|Hin]%elem_of_cons; [|by apply Hfs].
      destruct (decide (f ∈ fs)) as [Hin|Hin]; [by apply Hfs|].
      exists name. split; [done|]. rewrite Hrest by done.
      apply lookupitem_setitem_eq.
    + intros k [Hkf Hk]%not_elem_of_cons. rewrite Hrest by done.
      by apply lookupitem_setitem_ne.
Qed.

Local Abbreviation names_complete :=
  (names_complete_for locale locale_parse get_display_name).

Lemma names_of_all_languages (codes todo processed : list str)
    (result result' : names_dict) (log log' : list event) :
  sfor todo (λ result code,
    emit (PrintedProcessing code) ;;;
    lang <~ call (locale_parse code) ;;;
    let result := setitem result code [] in
    native <~ call (get_display_name lang code) ;;;
    result <~ set_name result code (py "_native") native ;;;
    sfor codes (λ result foreign,
      name <~ call (get_display_name lang foreign) ;;;
      set_name result code foreign name) result) result log
  = (inr result', log') →
  names_complete codes processed result →
  names_complete codes (processed ++ todo) result'
  ∧ log' = log ++ (PrintedProcessing <$> todo).
Proof.
  revert processed result log.
  induction todo as [|code todo IH]; intros processed result log.
  - intros [= <- <-] HJ. by rewrite !app_nil_r.
  - cbn [sfor]. unfold sbind at 1. unfold sbind at 1. unfold emit at 1.
    unfold sbind at 1. unfold call at 1.
    destruct (locale_parse code) as [e|lang] eqn:Hlang; [done|].
    unfold sbind at 1. unfold call at 1.
    destruct (get_display_name lang code) as [e|native] eqn:Hnative; [done|].
    unfold sbind at 1. unfold set_name at 1.
    rewrite lookupitem_setitem_eq. unfold sret at 1.
    set (result1 := setitem result code []).
    set (result2 := setitem result1 code (setitem [] (py "_native") native)).
    destruct (sfor codes _ result2 _) as [[e|result3] log3] eqn:Hinner; [done|].
    intros Hrun (Hnd & Hsub & Hkeys & Hall).
    apply (names_of_one_language lang code codes result2 result3
             (setitem [] (py "_native") native)) in Hinner
      as (-> & Hkeys3 & Hother & names & Hcode & Hfs & Hrest);
      [|apply lookupitem_setitem_eq].
    assert (result2.*1 = result1.*1) as Hkeys2.
    { apply keys_setitem_present. eapply lookupitem_Some_key.
      apply (lookupitem_setitem_eq result code []). }
    apply (IH (processed ++ [code])) in Hrun as [HJ ->].
    { split; [by rewrite <- app_assoc in HJ|]. by rewrite <- app_assoc. }
    split; [|split; [|split]].
    + rewrite Hkeys3, Hkeys2. by apply NoDup_keys_setitem.
    + rewrite Hkeys3, Hkeys2. unfold result1. rewrite keys_setitem.
      case_decide; [by apply sublist_inserts_r|by apply sublist_app].
    + intros k. rewrite Hkeys3, Hkeys2. unfold result1.
      rewrite elem_of_keys_setitem, Hkeys, elem_of_app,
        list_elem_of_singleton. tauto.
    + intros c Hc. destruct (decide (c = code)) as [->|Hne].
      * exists lang, names. split; [done|]. split; [done|]. split; [done|].
        intros Hnat. exists native. split; [done|].
        rewrite Hrest by done. apply lookupitem_setitem_eq.
      * apply elem_of_app in Hc as [Hc|Hc%list_elem_of_singleton]; [|done].
        destruct (Hall c Hc) as (lang' & names' & H1 & H2 & H3).
        exists lang', names'. split; [done|]. split; [|done].
        rewrite Hother by done. unfold result2, result1.
        by rewrite !lookupitem_setitem_ne.
Qed.

Variable babel_version : option str.
Variable version_below_2_15 : str → script_exn + bool.

(** X24.  When [create_language_names_dict] returns, it has announced
    every language code, "en" included, in sorted order, and its dict has
    these codes as keys, each once and in sorted order; under every code
    there is, for every code again, the name that babel gives the latter in
    the language of the former, and under "_native" the name of the
    language in itself. *)
Theorem names_dict_names_every_language (language_codes : list str)
    (result : names_dict) (log log' : list event) :
  create_language_names_dict locale babel_version version_below_2_15
    locale_parse get_display_name language_codes log = (inr result, log') →
  let codes := with_english language_codes in
  log' = log ++ (PrintedProcessing <$> sorted codes)
  ∧ NoDup result.*1
  ∧ StronglySorted str_lexle result.*1
  ∧ (∀ code, code ∈ result.*1 ↔ code = py "en" ∨ code ∈ language_codes)
  ∧ ∀ code, code ∈ codes →
      ∃ lang names,
        locale_parse code = inr lang
        ∧ lookupitem result code = Some names
        ∧ (∀ foreign, foreign ∈ codes →
             ∃ name, get_display_name lang foreign = inr name
                     ∧ lookupitem names foreign = Some name)
        ∧ (py "_native" ∉ codes →
             ∃ name, get_display_name lang code = inr name
                     ∧ lookupitem names (py "_native") = Some name).
Proof.
  unfold create_language_names_dict.
  destruct babel_version as [version|]; [|done].
  unfold sbind at 1. unfold call at 1.
  destruct (version_below_2_15 version) as [e|[|]]; [done|done|].
  intros Hrun. set (codes := with_english language_codes) in *.
  apply (names_of_all_languages codes (sorted codes) []) in Hrun
    as [(Hnd & Hsub & Hkeys & Hall) ->].
  2:{ split; [constructor|]. split; [done|]. split; [done|].
      by intros ? ?%elem_of_nil. }
  simpl in *.
  assert (∀ c, c ∈ sorted codes ↔ c ∈ codes) as Hsorted.
  { intros c. unfold sorted. by rewrite merge_sort_Permutation. }
  split; [done|]. split; [done|]. split.
  { eapply sublist_strongly_sorted; [done|].
    apply (StronglySorted_merge_sort _). }
  split.
  { intros c. rewrite Hkeys, Hsorted. unfold codes, with_english.
    case_bool_decide as Hen.
    - split; [auto|]. by intros [->|?].
    - rewrite elem_of_app, list_elem_of_singleton. tauto. }
  intros c Hc. apply Hall. by apply Hsorted.
Qed.

Variable languages_names : option names_dict.
Variable stem : str → str.

(** X25.  [update_language_names] returns [languages.names] as it is,
    without printing and without babel, exactly in the case that the
    attribute exists and the stem of every po file is one of its keys;
    names of languages without a po file do not matter.  In every other
    case it announces the missing languages and builds the dict anew
    from the stems. *)
Theorem language_names_are_kept_when_complete (po_paths : list str)
    (log : list event) :
  let update :=
    update_language_names locale babel_version version_below_2_15
      locale_parse get_display_name languages_names stem po_paths in
  (∀ names, languages_names = Some names →
     (∀ po_path, po_path ∈ po_paths → stem po_path ∈ names.*1) →
     update log = (inr names, log))
  ∧ ((languages_names = None
      ∨ ∃ names po_path, languages_names = Some names
                         ∧ po_path ∈ po_paths ∧ stem po_path ∉ names.*1) →
     ∃ missing_langs,
       update log
       = create_language_names_dict locale babel_version version_below_2_15
           locale_parse get_display_name (stem <$> po_paths)
           (log ++ [PrintedMissing missing_langs])).
Proof.
  intros update. subst update. unfold update_language_names. split.
  - intros names -> Hall.
    rewrite bool_decide_eq_false_2; [done|].
    intros Hne. apply Hne. clear Hne.
    induction po_paths as [|p ps IH]; [done|].
    rewrite fmap_cons, filter_cons. rewrite decide_False.
    + apply IH. intros q Hq. apply Hall. by right.
    + intros Hp. apply Hp, Hall. by left.
  - intros Hmissing. eexists.
    rewrite bool_decide_eq_true_2; [done|].
    destruct Hmissing as [->|(names & p & -> & Hp & Hkey)]; [done|].
    intros Hnil.
    assert (stem p ∈ filter (λ lang, lang ∉ names.*1) (stem <$> po_paths))
      as Hin.
    { apply list_elem_of_filter. split; [done|].
      apply list_elem_of_fmap. by exists p. }
    rewrite Hnil in Hin. by apply elem_of_nil in Hin.
Qed.

End language_names_properties.

Lemma names_dict_names_every_language_witness :
  let parse := λ code : str, inr code : script_exn + str in
  let name := λ (lang code : str), inr (Some (code ++ py " in " ++ lang))
                : script_exn + option str in
  let result :=
    [(py "de", [(py "_native", Some (py "de in de"));
                (py "de", Some (py "de in de"));
                (py "en", Some (py "en in de"))]);
     (py "en", [(py "_native", Some (py "en in en"));
                (py "de", Some (py "de in en"));
                (py "en", Some (py "en in en"))])] in
  create_language_names_dict str (Some (py "2.16")) (λ _, inr false)
    parse name [py "de"] []
  = (inr result, [PrintedProcessing (py "de"); PrintedProcessing (py "en")])
  ∧ StronglySorted str_lexle result.*1
  ∧ ∀ code, code ∈ result.*1 ↔ code = py "en" ∨ code ∈ [py "de"].
Proof.
  intros parse name result.
  assert (create_language_names_dict str (Some (py "2.16")) (λ _, inr false)
            parse name [py "de"] []
          = (inr result,
             [PrintedProcessing (py "de"); PrintedProcessing (py "en")]))
    as Hrun by reflexivity.
  split; [exact Hrun|].
  destruct (names_dict_names_every_language str parse name
              (Some (py "2.16")) (λ _, inr false) [py "de"] result [] _ Hrun)
    as (_ & _ & Hsorted & Hkeys & _).
  split; [exact Hsorted|exact Hkeys].
Defined.

Lemma language_names_are_kept_when_complete_witness :
  let names : names_dict :=
    [(py "de", []); (py "en", []); (py "fr", [])] in
  let stem := λ p : str, take 2 (drop 10 p) in
  (∀ po_path, po_path ∈ [py "common/po/de.po"] → stem po_path ∈ names.*1)
  ∧ update_language_names str None (λ _, inr false) (λ code, inr code)
      (λ _ _, inr None) (Some names) stem [py "common/po/de.po"] []
    = (inr names, []).
Proof.
  intros names stem.
  assert (∀ po_path, po_path ∈ [py "common/po/de.po"]
                     → stem po_path ∈ names.*1) as Hall.
  { intros p ->%list_elem_of_singleton. by left. }
  split; [exact Hall|].
  apply (language_names_are_kept_when_complete str (λ code, inr code)
           (λ _ _, inr None) None (λ _, inr false) (Some names) stem
           [py "common/po/de.po"] []); [reflexivity|exact Hall].
Defined.

(** * The passes with the reading of their files *)

Lemma appends_for_each_raise {A} (body : A → prog ())
    (text : A → list message) (before : list A) (x : A) (after : list A)
    (e : exn) (t : list message) :
  (∀ y, y ∈ before → appends (body y) (inr ()) (text y)) →
  appends (body x) (inl e) t →
  appends (for_each (before ++ x :: after) body) (inl e)
          ((before ≫= text) ++ t).
Proof.
  unfold for_each. induction before as [|y before IH]; intros Hbefore Hx; simpl.
  - by apply appends_bind_raise.
  - rewrite <- app_assoc. eapply appends_bind.
    + apply Hbefore. by left.
    + apply IH; [|done]. intros z Hz. apply Hbefore. by right.
Qed.

Lemma read_all_elem (pofile : str → option POFile) (po_paths : list str)
    (po_files : list (str * POFile)) (po_path : str) :
  read_all pofile po_paths = Some po_files →
  po_path ∈ po_paths → is_Some (pofile po_path).
Proof.
  revert po_files. induction po_paths as [|p ps IH]; intros po_files; simpl.
  - by intros _ ?%elem_of_nil.
  - destruct (pofile p) as [pof|] eqn:Hp; [|done].
    destruct (read_all pofile ps) as [rest|]; [|done].
    intros _ [->|Hin]%elem_of_cons; [by rewrite Hp|by eapply IH].
Qed.

Lemma read_all_bind (pofile : str → option POFile) (po_paths : list str)
    (po_files : list (str * POFile)) (f : str * POFile → list message) :
  read_all pofile po_paths = Some po_files →
  (po_paths ≫= λ po_path,
     match pofile po_path with
     | Some pof => f (po_path, pof)
     | None => []
     end) = po_files ≫= f.
Proof.
  revert po_files. induction po_paths as [|p ps IH]; intros po_files; simpl.
  - by intros [= <-].
  - destruct (pofile p) as [pof|] eqn:Hp; [|done].
    destruct (read_all pofile ps) as [rest|]; [|done].
    intros [= <-]. rewrite bind_cons. f_equal. by apply IH.
Qed.

Lemma read_all_paths (pofile : str → option POFile) (po_paths : list str)
    (po_files : list (str * POFile)) :
  read_all pofile po_paths = Some po_files → po_files.*1 = po_paths.
Proof.
  revert po_files. induction po_paths as [|p ps IH]; intros po_files; simpl.
  - by intros [= <-].
  - destruct (pofile p) as [pof|]; [|done].
    destruct (read_all pofile ps) as [rest|]; [|done].
    intros [= <-]. simpl. f_equal. by apply IH.
Qed.

Lemma bind_ext {A B} (m m' : prog A) (k k' : A → prog B)
    (out : list message) :
  m out = m' out → (∀ a out', k a out' = k' a out') →
  bind m k out = bind m' k' out.
Proof.
  intros Hm Hk. unfold bind. rewrite Hm.
  destruct (m' out) as [[e|a] out']; [done|apply Hk].
Qed.

Lemma for_each_Forall2 {A B} (f : A → prog ()) (g : B → prog ())
    (l : list A) (l' : list B) :
  Forall2 (λ a b, ∀ out, f a out = g b out) l l' →
  ∀ out, for_each l f out = for_each l' g out.
Proof.
  unfold for_each. induction 1 as [|a b l l' Hab _ IH]; intros out; simpl;
    [done|].
  apply bind_ext; [apply Hab|]. intros [] out'. apply IH.
Qed.

Lemma read_all_Forall2 (pofile : str → option POFile) (po_paths : list str)
    (po_files : list (str * POFile)) :
  read_all pofile po_paths = Some po_files →
  Forall2 (λ po_path file, file.1 = po_path ∧ pofile po_path = Some file.2)
          po_paths po_files.
Proof.
  revert po_files. induction po_paths as [|p ps IH]; intros po_files; simpl.
  - intros [= <-]. constructor.
  - destruct (pofile p) as [pof|] eqn:Hp; [|done].
    destruct (read_all pofile ps) as [rest|]; [|done].
    intros [= <-]. constructor; [done|]. by apply IH.
Qed.

Section reading_properties.

Variable formatter_parse : str → option str.
Variable translated : POEntry → bool.
Variable is_word : N → bool.
Variable pofile : str → option POFile.

Local Abbreviation file_findings :=
  (syntax_findings formatter_parse translated).
Local Abbreviation file_report := (shortcut_report is_word).

Lemma syntax_body_read (po_path : str) :
  match pofile po_path with
  | Some pof =>
      appends (print (MsgLanguage po_path) ;;
               pof <- polib_pofile pofile po_path ;;
               for_each (translated_entries translated pof)
                        (check_syntax_of_entry formatter_parse))
              (inr ()) (file_findings (po_path, pof))
  | None =>
      appends (print (MsgLanguage po_path) ;;
               pof <- polib_pofile pofile po_path ;;
               for_each (translated_entries translated pof)
                        (check_syntax_of_entry formatter_parse))
              (inl (PofileError po_path)) [MsgLanguage po_path]
  end.
Proof.
  unfold polib_pofile. destruct (pofile po_path) as [pof|].
  - apply (appends_bind _ _ () [MsgLanguage po_path]); [apply appends_print|].
    apply appends_bind_silent with (a := pof); [apply appends_ret|].
    apply appends_for_each. intros entry _. apply entry_findings_appended.
  - rewrite <- (app_nil_r [MsgLanguage po_path]).
    apply (appends_bind _ _ () [MsgLanguage po_path]); [apply appends_print|].
    apply appends_bind_raise, appends_raise.
Qed.

(** When polib reads every po file, the pass that reads them does what
    the pass does on the files read. *)
Lemma check_syntax_of_po_files_read_all (po_paths : list str)
    (po_files : list (str * POFile)) (out : list message) :
  read_all pofile po_paths = Some po_files →
  check_syntax_of_po_files_read formatter_parse translated pofile po_paths out
  = check_syntax_of_po_files formatter_parse translated po_files out.
Proof.
  intros Hread.
  unfold check_syntax_of_po_files_read, check_syntax_of_po_files.
  apply bind_ext; [done|]. intros _ out1. apply bind_ext; [|done].
  apply for_each_Forall2.
  eapply Forall2_impl; [by apply read_all_Forall2|].
  intros p [p' pof] [Hpath Hp] out'. simpl in Hpath, Hp. subst p'.
  apply bind_ext; [done|]. intros _ out2.
  unfold polib_pofile. by rewrite Hp.
Qed.

Lemma check_shortcuts_read_all (template : POFile) (po_paths : list str)
    (po_files : list (str * POFile)) (out : list message) :
  pofile template_po = Some template →
  read_all pofile po_paths = Some po_files →
  check_shortcuts_read is_word pofile po_paths out
  = check_shortcuts is_word template po_files out.
Proof.
  intros Htemplate Hread. unfold check_shortcuts_read, check_shortcuts.
  apply bind_ext.
  { unfold get_shortcut_groups_read, polib_pofile. by rewrite Htemplate. }
  intros groups out1. apply for_each_Forall2.
  eapply Forall2_impl; [by apply read_all_Forall2|].
  intros p [p' pof] [Hpath Hp] out'. simpl in Hpath, Hp. subst p'.
  unfold check_shortcuts_of_po_file.
  apply bind_ext; [done|]. intros _ out2.
  unfold polib_pofile. by rewrite Hp.
Qed.

(** X14.  [check_syntax_of_po_files] prints its heading and then goes
    through the po files in order: for a file it prints the language line,
    reads the file and prints the findings of its translated entries in
    their order, each entry's findings being what the entry yields on its
    own.  When polib reads every file, it ends with an empty line and
    returns, and the language lines of the output are the paths in order;
    when polib fails on a file, it raises that error right after the
    language line of this file, with the findings of the files before it
    printed and no later file looked at. *)
Theorem syntax_pass_reads_file_by_file (po_paths : list str) :
  let findings : str * POFile → list message :=
    λ '(po_path, pof),
      MsgLanguage po_path
        :: (translated_entries translated pof
              ≫= entry_findings formatter_parse) in
  (∀ po_files,
     read_all pofile po_paths = Some po_files →
     appends (check_syntax_of_po_files_read formatter_parse translated pofile
                po_paths)
             (inr ()) (MsgCheckingSyntax :: (po_files ≫= findings) ++ [MsgEmpty])
     ∧ omap printed_language (po_files ≫= findings) = po_paths)
  ∧ (∀ before po_path after po_files,
       po_paths = before ++ po_path :: after →
       read_all pofile before = Some po_files →
       pofile po_path = None →
       appends (check_syntax_of_po_files_read formatter_parse translated pofile
                  po_paths)
               (inl (PofileError po_path))
               (MsgCheckingSyntax :: (po_files ≫= findings)
                                     ++ [MsgLanguage po_path])).
Proof.
  intros findings. change findings with file_findings. clear findings.
  set (text := λ po_path,
         match pofile po_path with
         | Some pof => file_findings (po_path, pof)
         | None => []
         end).
  assert (∀ paths po_files y,
            read_all pofile paths = Some po_files → y ∈ paths →
            appends (print (MsgLanguage y) ;;
                     pof <- polib_pofile pofile y ;;
                     for_each (translated_entries translated pof)
                              (check_syntax_of_entry formatter_parse))
                    (inr ()) (text y)) as Hbody.
  { intros paths po_files y Hread Hy.
    pose proof (syntax_body_read y) as Hb. unfold text.
    destruct (read_all_elem _ _ _ _ Hread Hy) as [pof Hpof].
    by rewrite Hpof in *. }
  split.
  - intros po_files Hread. split.
    + unfold check_syntax_of_po_files_read.
      apply (appends_bind _ _ () [MsgCheckingSyntax] _
               ((po_files ≫= file_findings) ++ [MsgEmpty]));
        [apply appends_print|].
      apply (appends_bind _ _ () (po_files ≫= file_findings) _ [MsgEmpty]);
        [|apply appends_print].
      rewrite <- (read_all_bind pofile po_paths po_files file_findings Hread).
      apply (appends_for_each _ text). intros y Hy. by eapply Hbody.
    + rewrite <- (read_all_paths _ _ _ Hread). clear.
      induction po_files as [|[po_path pof] po_files IH]; [done|].
      rewrite bind_cons, omap_app, IH. csimpl. f_equal.
      induction (translated_entries translated pof) as [|e l IHl]; [done|].
      by rewrite bind_cons, omap_app, entry_findings_no_language.
  - intros before po_path after po_files -> Hread Hnone.
    unfold check_syntax_of_po_files_read.
    apply (appends_bind _ _ () [MsgCheckingSyntax] _
             ((po_files ≫= file_findings) ++ [MsgLanguage po_path]));
      [apply appends_print|].
    apply appends_bind_raise.
    rewrite <- (read_all_bind pofile before po_files file_findings Hread).
    apply (appends_for_each_raise _ text).
    + intros y Hy. by eapply Hbody.
    + pose proof (syntax_body_read po_path) as Hb. by rewrite Hnone in Hb.
Qed.

Lemma shortcut_report_shape (po_path : str) (pof : POFile) :
  Forall (λ m, ∃ missing g source translation,
                 m = ErrShortcuts po_path missing g source translation)
         (file_report po_path pof)
  ∧ omap finding_group (file_report po_path pof)
    `sublist_of` [py "mainwindow"; py "manageprofile"].
Proof.
  unfold file_report. simpl. rewrite app_nil_r. unfold group_report.
  do 2 (match goal with
        | |- context [bool_decide (NoDup ?l)] =>
            destruct (bool_decide (NoDup l))
        end);
    simpl; (split; [repeat constructor; eauto|]);
    first [ done
          | by apply sublist_nil_l
          | by apply sublist_cons
          | by apply sublist_skip, sublist_nil_l ].
Qed.

Lemma shortcut_body_read (po_path : str) :
  match pofile po_path with
  | Some pof =>
      appends (print (MsgPoPath po_path) ;;
               let real := (λ key, (key, [])) <$> dict_keys shortcut_groups in
               pof <- polib_pofile pofile po_path ;;
               let shortcut_entries := get_shortcut_entries is_word pof in
               real <- group_entries shortcut_groups real shortcut_entries ;;
               for_each (dict_keys real)
                 (check_shortcut_group is_word shortcut_groups real po_path))
              (inr ()) (MsgPoPath po_path :: file_report po_path pof)
  | None =>
      appends (print (MsgPoPath po_path) ;;
               let real := (λ key, (key, [])) <$> dict_keys shortcut_groups in
               pof <- polib_pofile pofile po_path ;;
               let shortcut_entries := get_shortcut_entries is_word pof in
               real <- group_entries shortcut_groups real shortcut_entries ;;
               for_each (dict_keys real)
                 (check_shortcut_group is_word shortcut_groups real po_path))
              (inl (PofileError po_path)) [MsgPoPath po_path]
  end.
Proof.
  unfold polib_pofile. destruct (pofile po_path) as [pof|].
  - exact (check_shortcuts_of_po_file_spec is_word shortcut_groups po_path pof
             NoDup_shortcut_group_names).
  - rewrite <- (app_nil_r [MsgPoPath po_path]).
    apply (appends_bind _ _ () [MsgPoPath po_path]); [apply appends_print|].
    apply appends_bind_raise, appends_raise.
Qed.

(** X9.  [check_shortcuts] first reads the template and checks the
    groups: it raises the error of polib when the template cannot be read
    and [ValueError] when the strings have drifted, with nothing printed.
    Then it goes through the po files in order: for a file it prints the
    line with its path, reads the file and prints what the group mainwindow
    and then the group manageprofile give for the entries of this file, at
    most one finding each, about this file.  When polib reads every file it
    returns; when polib fails on a file it raises that error right after
    the path line of this file, with the findings of the files before it
    printed and no later file looked at. *)
Theorem shortcut_pass_reads_file_by_file (po_paths : list str) :
  let check := check_shortcuts_read is_word pofile po_paths in
  let report : str → POFile → list message :=
    λ po_path pof,
      [py "mainwindow"; py "manageprofile"]
        ≫= group_report is_word shortcut_groups po_path pof in
    (∀ po_path pof,
       Forall (λ m, ∃ missing g source translation,
                      m = ErrShortcuts po_path missing g source translation)
              (report po_path pof)
       ∧ omap finding_group (report po_path pof)
         `sublist_of` [py "mainwindow"; py "manageprofile"])
    ∧ (pofile template_po = None →
       appends check (inl (PofileError template_po)) [])
    ∧ (∀ template,
         pofile template_po = Some template →
         ¬ live_strings is_word template ≡ₚ expect →
         appends check
           (inl (ValueError (sorted expect)
                            (sorted (live_strings is_word template)))) [])
    ∧ (∀ template po_files,
         pofile template_po = Some template →
         live_strings is_word template ≡ₚ expect →
         read_all pofile po_paths = Some po_files →
         appends check (inr ())
           (po_files ≫= λ '(po_path, pof),
              MsgPoPath po_path :: report po_path pof))
    ∧ (∀ template before po_path after po_files,
         pofile template_po = Some template →
         live_strings is_word template ≡ₚ expect →
         po_paths = before ++ po_path :: after →
         read_all pofile before = Some po_files →
         pofile po_path = None →
         appends check (inl (PofileError po_path))
           ((po_files ≫= λ '(po_path, pof),
               MsgPoPath po_path :: report po_path pof)
            ++ [MsgPoPath po_path])).
Proof.
  intros check report.
  change report with file_report. clear report.
  split; [apply shortcut_report_shape|].
  subst check. unfold check_shortcuts_read, get_shortcut_groups_read.
  set (text := λ po_path,
         match pofile po_path with
         | Some pof => MsgPoPath po_path :: file_report po_path pof
         | None => []
         end).
  set (f := (λ '(po_path, pof),
               MsgPoPath po_path :: file_report po_path pof)
            : str * POFile → list message).
  assert (∀ paths po_files y,
            read_all pofile paths = Some po_files → y ∈ paths →
            appends (print (MsgPoPath y) ;;
               let real := (λ key, (key, [])) <$> dict_keys shortcut_groups in
               pof <- polib_pofile pofile y ;;
               let shortcut_entries := get_shortcut_entries is_word pof in
               real <- group_entries shortcut_groups real shortcut_entries ;;
               for_each (dict_keys real)
                 (check_shortcut_group is_word shortcut_groups real y))
              (inr ()) (text y)) as Hbody.
  { intros paths po_files y Hread Hy.
    pose proof (shortcut_body_read y) as Hb. unfold text.
    destruct (read_all_elem _ _ _ _ Hread Hy) as [pof Hpof].
    by rewrite Hpof in *. }
  split; [|split; [|split]].
  - intros Hnone. apply appends_bind_raise, appends_bind_raise.
    unfold polib_pofile. rewrite Hnone. apply appends_raise.
  - intros template Htemplate Hdrift. apply appends_bind_raise.
    apply appends_bind_silent with (a := template).
    { unfold polib_pofile. rewrite Htemplate. apply appends_ret. }
    by apply get_shortcut_groups_spec.
  - intros template po_files Htemplate Hlive Hread.
    apply appends_bind_silent with (a := shortcut_groups).
    { apply appends_bind_silent with (a := template).
      - unfold polib_pofile. rewrite Htemplate. apply appends_ret.
      - by apply get_shortcut_groups_spec. }
    change (appends
              (for_each po_paths (λ po_path,
                 print (MsgPoPath po_path) ;;
                 let real := (λ key, (key, [])) <$> dict_keys shortcut_groups in
                 pof <- polib_pofile pofile po_path ;;
                 let shortcut_entries := get_shortcut_entries is_word pof in
                 real <- group_entries shortcut_groups real shortcut_entries ;;
                 for_each (dict_keys real)
                   (check_shortcut_group is_word shortcut_groups real po_path)))
              (inr ()) (po_files ≫= f)).
    rewrite <- (read_all_bind pofile po_paths po_files f Hread).
    apply (appends_for_each _ text). intros y Hy. by eapply Hbody.
  - intros template before po_path after po_files Htemplate Hlive -> Hread
      Hnone.
    apply appends_bind_silent with (a := shortcut_groups).
    { apply appends_bind_silent with (a := template).
      - unfold polib_pofile. rewrite Htemplate. apply appends_ret.
      - by apply get_shortcut_groups_spec. }
    change (appends
              (for_each (before ++ po_path :: after) (λ po_path,
                 print (MsgPoPath po_path) ;;
                 let real := (λ key, (key, [])) <$> dict_keys shortcut_groups in
                 pof <- polib_pofile pofile po_path ;;
                 let shortcut_entries := get_shortcut_entries is_word pof in
                 real <- group_entries shortcut_groups real shortcut_entries ;;
                 for_each (dict_keys real)
                   (check_shortcut_group is_word shortcut_groups real po_path)))
              (inl (PofileError po_path))
              ((po_files ≫= f) ++ [MsgPoPath po_path])).
    rewrite <- (read_all_bind pofile before po_files f Hread).
    apply (appends_for_each_raise _ text).
    + intros y Hy. by eapply Hbody.
    + pose proof (shortcut_body_read po_path) as Hb. by rewrite Hnone in Hb.
Qed.

End reading_properties.

Lemma syntax_pass_reads_file_by_file_witness :
  let check :=
    check_syntax_of_po_files_read (λ _, None)
      (λ entry, bool_decide (msgstr entry ≠ [])) sample_pofile in
  appends (check [py "common/po/fr.po"]) (inr ())
    [MsgCheckingSyntax; MsgLanguage (py "common/po/fr.po");
     ErrCurlyNotBalanced (py "{a"); MsgSourceString (py "{a}"); MsgEmpty]
  ∧ appends (check [py "common/po/fr.po"; py "common/po/de.po";
                    py "common/po/it.po"])
      (inl (PofileError (py "common/po/de.po")))
      [MsgCheckingSyntax; MsgLanguage (py "common/po/fr.po");
       ErrCurlyNotBalanced (py "{a"); MsgSourceString (py "{a}");
       MsgLanguage (py "common/po/de.po")].
Proof.
  split.
  - exact (proj1 (proj1 (syntax_pass_reads_file_by_file (λ _, None)
                           (λ entry, bool_decide (msgstr entry ≠ []))
                           sample_pofile [py "common/po/fr.po"])
                    [(py "common/po/fr.po", sample_fr_po)] eq_refl)).
  - exact (proj2 (syntax_pass_reads_file_by_file (λ _, None)
                    (λ entry, bool_decide (msgstr entry ≠ []))
                    sample_pofile
                    [py "common/po/fr.po"; py "common/po/de.po";
                     py "common/po/it.po"])
             [py "common/po/fr.po"] (py "common/po/de.po")
             [py "common/po/it.po"]
             [(py "common/po/fr.po", sample_fr_po)]
             eq_refl eq_refl eq_refl).
Defined.

Lemma shortcut_pass_reads_file_by_file_witness :
  let check := check_shortcuts_read ascii_word sample_pofile in
  let finding :=
    ErrShortcuts (py "common/po/fr.po") false (py "mainwindow")
      [py "Back In &Time"; py "&Backup"; py "&Restore"; py "&Help"]
      [py "&Sauvegarder"; py "&Restaurer"; py "&Support"] in
  appends (check [py "common/po/fr.po"]) (inr ())
    [MsgPoPath (py "common/po/fr.po"); finding]
  ∧ appends (check [py "common/po/fr.po"; py "common/po/de.po";
                    py "common/po/it.po"])
      (inl (PofileError (py "common/po/de.po")))
      [MsgPoPath (py "common/po/fr.po"); finding;
       MsgPoPath (py "common/po/de.po")].
Proof.
  assert (live_strings ascii_word registered_template ≡ₚ expect) as HP
    by reflexivity.
  split.
  - exact (proj1 (proj2 (proj2 (proj2
             (shortcut_pass_reads_file_by_file ascii_word sample_pofile
                [py "common/po/fr.po"]))))
             registered_template [(py "common/po/fr.po", sample_fr_po)]
             eq_refl HP eq_refl).
  - exact (proj2 (proj2 (proj2 (proj2
             (shortcut_pass_reads_file_by_file ascii_word sample_pofile
                [py "common/po/fr.po"; py "common/po/de.po";
                 py "common/po/it.po"]))))
             registered_template [py "common/po/fr.po"]
             (py "common/po/de.po") [py "common/po/it.po"]
             [(py "common/po/fr.po", sample_fr_po)]
             eq_refl HP eq_refl eq_refl eq_refl).
Defined.

(** * The script as a program *)

Lemma sbind_returns {A B} (m : script A) (k : A → script B)
    (log : list event) (a : A) (log' : list event) :
  m log = (inr a, log') → sbind m k log = k a log'.
Proof. unfold sbind. by intros ->. Qed.

Lemma sbind_raises {A B} (m : script A) (k : A → script B)
    (log : list event) (e : script_exn) (log' : list event) :
  m log = (inl e, log') → sbind m k log = (inl e, log').
Proof. unfold sbind. by intros ->. Qed.

Section script_properties.

Variable stem : str → str.
Variable run_ok : list event → list str → bool.
Variable path_exists : str → bool.
Variable update_po_template : script ().
Variable create_languages_file : script ().
Variable update_from_weblate : script ().
Variable run_check_syntax_of_po_files : script ().
Variable run_check_shortcuts : script ().
Variable po_paths : list str.
Variable import_common_languages : script ().

(** X18.  When the imports succeed and the file VERSION is read, but
    common/po or the template in it does not exist, the script raises
    [FileNotFoundError] for the first of the two that is missing, before it
    looks at its arguments: none of its functions is run, and the line with
    the version of polib is all that it prints after the import of
    common.languages. *)
Theorem script_needs_the_po_folder_and_template (argv : list str)
    (version package_version : str) (log after_import : list event) :
  let script :=
    run_script stem run_ok path_exists update_po_template
      create_languages_file update_from_weblate run_check_syntax_of_po_files
      run_check_shortcuts po_paths import_common_languages (Some version)
      (inr package_version) argv in
  import_common_languages log = (inr (), after_import) →
  (path_exists local_dir = false →
     script log
     = (inl (FileNotFoundError local_dir),
        after_import ++ [PrintedPolibVersion version]))
  ∧ (path_exists local_dir = true → path_exists template_po = false →
     script log
     = (inl (FileNotFoundError template_po),
        after_import ++ [PrintedPolibVersion version])).
Proof.
  intros script Himport. subst script.
  assert (module_level import_common_languages (Some version)
            (inr package_version) log
          = (inr (), after_import ++ [PrintedPolibVersion version])) as Hmodule.
  { unfold module_level, sbind, emit, call, sret. by rewrite Himport. }
  unfold run_script. rewrite (sbind_returns _ _ _ _ _ Hmodule).
  unfold main. split.
  - intros Hdir. apply sbind_raises.
    by rewrite check_existence_spec, Hdir.
  - intros Hdir Htemplate. apply sbind_raises.
    by rewrite check_existence_spec, Hdir, Htemplate.
Qed.

End script_properties.

Lemma script_needs_the_po_folder_and_template_witness :
  run_script (λ p, p) (λ _ _, true) (λ p, bool_decide (p = local_dir))
    (sret ()) (sret ()) (sret ()) (sret ()) (sret ()) [] (sret ())
    (Some (py "1.2.0")) (inr (py "1.5.7"))
    [py "update_language_files.py"; py "syntax"] []
  = (inl (FileNotFoundError template_po), [PrintedPolibVersion (py "1.2.0")]).
Proof.
  apply (proj2 (script_needs_the_po_folder_and_template (λ p, p) (λ _ _, true)
                  (λ p, bool_decide (p = local_dir))
                  (sret ()) (sret ()) (sret ()) (sret ()) (sret ()) []
                  (sret ()) [py "update_language_files.py"; py "syntax"]
                  (py "1.2.0") (py "1.5.7") [] [] eq_refl));
    reflexivity.
Defined.

(** * Findings of the shortcut pass and repeated letters *)

Lemma dict_lookup_elem (d : dict) (key : str) (value : list str) :
  NoDup (dict_keys d) → (key, value) ∈ d → dict_lookup d key = Some value.
Proof.
  unfold dict_keys. induction d as [|[k v] d IH]; csimpl.
  - by intros _ ?%elem_of_nil.
  - intros [Hk Hnd]%NoDup_cons [[= -> ->]|Hin]%elem_of_cons.
    + by rewrite decide_True.
    + rewrite decide_False; [by apply IH|].
      intros ->. apply Hk. apply list_elem_of_fmap. by exists (key, value).
Qed.

Lemma search_iff_first_marker (is_word : N → bool) (s : str) (letter : N) :
  rex_shortcut_letter_search is_word s = Some letter
  ↔ first_marker_letter is_word s letter.
Proof.
  split.
  - intros Hs.
    destruct (search_first_marker is_word s)
      as (i & c & H1 & H2 & H3 & H4 & H5).
    { by eapply search_gives_marker. }
    rewrite Hs in H5. injection H5 as <-. by exists i.
  - intros (i & H1 & H2 & H3 & H4).
    destruct (search_first_marker is_word s)
      as (i' & c & G1 & G2 & G3 & G4 & G5).
    { exists i. split; [done|]. by exists letter. }
    rewrite G5. f_equal.
    destruct (lt_eq_lt_dec i i') as [[Hlt| ->]|Hlt].
    + destruct (G4 i Hlt). split; [done|]. by exists letter.
    + congruence.
    + destruct (H4 i' Hlt). split; [done|]. by exists c.
Qed.

Lemma collect_letters_entry_letter (is_word : N → bool) (members : list str)
    (pof : POFile) :
  collect_letters is_word (group_translations is_word members pof)
  = omap (entry_letter is_word members) pof.
Proof.
  rewrite collect_letters_omap. unfold group_translations, get_shortcut_entries.
  induction pof as [|e pof IH]; [done|].
  rewrite filter_cons. csimpl. unfold entry_letter at 1.
  destruct (decide (obsolete e = false
                    ∧ is_Some (rex_shortcut_letter_search is_word (msgid e))))
    as [H1|H1].
  - rewrite filter_cons. destruct (decide (msgid e ∈ members)) as [H2|H2].
    + rewrite decide_True by tauto. csimpl. by rewrite IH.
    + rewrite decide_False by tauto. by rewrite IH.
  - rewrite decide_False by tauto. by rewrite IH.
Qed.

Lemma not_NoDup_omap {A} (f : A → option N) (l : list A) :
  ¬ NoDup (omap f l)
  ↔ ∃ i j a b c, i ≠ j ∧ l !! i = Some a ∧ l !! j = Some b
                 ∧ f a = Some c ∧ f b = Some c.
Proof.
  induction l as [|x l IH].
  - split; [intros H; destruct H; constructor|].
    intros (i & j & a & b & c & _ & Hi & _). by rewrite lookup_nil in Hi.
  - csimpl. destruct (f x) as [c|] eqn:Hx.
    + rewrite NoDup_cons. split.
      * intros H. destruct (decide (c ∈ omap f l)) as [Hin|Hin].
        -- apply list_elem_of_omap in Hin as (b & Hb & Hfb).
           apply list_elem_of_lookup in Hb as [j Hj].
           by exists O, (S j), x, b, c.
        -- assert (¬ NoDup (omap f l)) as Hnd by tauto.
           apply IH in Hnd as (i & j & a & b & c' & Hij & Hi & Hj & Ha & Hb).
           exists (S i), (S j), a, b, c'. repeat split; auto with lia.
      * intros (i & j & a & b & c' & Hij & Hi & Hj & Ha & Hb) [Hnin Hnd].
        destruct i as [|i], j as [|j]; simplify_eq/=.
        -- apply Hnin, list_elem_of_omap. exists b. split; [|done].
           by eapply list_elem_of_lookup_2.
        -- apply Hnin, list_elem_of_omap. exists a. split; [|done].
           by eapply list_elem_of_lookup_2.
        -- revert Hnd. apply IH. exists i, j, a, b, c'.
           repeat split; auto with lia.
    + rewrite IH. split.
      * intros (i & j & a & b & c & Hij & Hi & Hj & Ha & Hb).
        exists (S i), (S j), a, b, c. repeat split; auto with lia.
      * intros (i & j & a & b & c & Hij & Hi & Hj & Ha & Hb).
        destruct i as [|i], j as [|j]; simplify_eq/=.
        exists i, j, a, b, c. repeat split; auto with lia.
Qed.

Lemma entry_letter_at (is_word : N → bool) (members : list str)
    (pof : POFile) (i : nat) (letter : N) :
  group_letter_at is_word members pof i letter
  ↔ ∃ entry, pof !! i = Some entry
             ∧ entry_letter is_word members entry = Some letter.
Proof.
  unfold group_letter_at, entry_letter.
  split; intros (entry & Hi & H); exists entry; (split; [done|]).
  - destruct H as (Hobs & Hm & Hin & Hl).
    rewrite decide_True; [by apply search_iff_first_marker|].
    by rewrite search_is_Some_iff.
  - case_decide as Hd; [|done]. destruct Hd as (Hobs & Hm & Hin).
    repeat split; [done|by apply search_is_Some_iff|done|].
    by apply search_iff_first_marker.
Qed.

(** C5.  For a po file and the groups of a dictionary, the pass prints
    the path and then the findings, and it has a finding for a group exactly
    when two entries of the file at different places give the same letter
    to the group, letters being compared as code points.  An entry gives a
    letter to a group when it is not obsolete, its source string has a
    marker and is among the source strings of the group; the letter is the
    word character after the first '&' of its translation that has a word
    character next.  So a translation without a marker gives no letter, and
    a group whose letters are all different has no finding however many
    markers are missing. *)
Theorem shortcut_finding_iff_repeated_letter (is_word : N → bool)
    (groups : dict) (po_path : str) (pof : POFile) :
  NoDup (dict_keys groups) →
  ∃ report,
    appends (check_shortcuts_of_po_file is_word groups po_path pof) (inr ())
            (MsgPoPath po_path :: report)
    ∧ ∀ g members, (g, members) ∈ groups →
        ((∃ missing source translation,
            ErrShortcuts po_path missing g source translation ∈ report)
         ↔ ∃ i j letter,
             i ≠ j
             ∧ group_letter_at is_word members pof i letter
             ∧ group_letter_at is_word members pof j letter).
Proof.
  intros Hnd.
  exists (dict_keys groups ≫= group_report is_word groups po_path pof).
  split; [by apply check_shortcuts_of_po_file_spec|].
  intros g members Hg.
  assert (members_of groups g = members) as Hmembers.
  { unfold members_of. by rewrite (dict_lookup_elem groups g members). }
  assert (g ∈ dict_keys groups) as Hkey.
  { apply list_elem_of_fmap. by exists (g, members). }
  transitivity (¬ NoDup (collect_letters is_word
                           (group_translations is_word members pof))).
  - rewrite <- Hmembers. split.
    + intros (missing & source & translation & Hin).
      apply list_elem_of_bind in Hin as (k & Hin & _).
      unfold group_report in Hin. case_bool_decide as Hdup.
      * by apply elem_of_nil in Hin.
      * apply list_elem_of_singleton in Hin. by simplify_eq.
    + intros Hdup. eexists _, _, _. apply list_elem_of_bind.
      exists g. split; [|done].
      unfold group_report.
      rewrite (bool_decide_eq_false_2 _ Hdup). by left.
  - rewrite collect_letters_entry_letter, not_NoDup_omap. split.
    + intros (i & j & a & b & c & Hij & Hi & Hj & Ha & Hb).
      exists i, j, c. split; [done|].
      split; apply entry_letter_at; eauto.
    + intros (i & j & c & Hij & [a [Hi Ha]]%entry_letter_at
                & [b [Hj Hb]]%entry_letter_at).
      by exists i, j, a, b, c.
Qed.

Lemma shortcut_finding_iff_repeated_letter_witness :
  NoDup (dict_keys shortcut_groups)
  ∧ ∃ report,
      appends (check_shortcuts_of_po_file ascii_word shortcut_groups
                 (py "common/po/fr.po") sample_fr_po) (inr ())
              (MsgPoPath (py "common/po/fr.po") :: report)
      ∧ (∃ missing source translation,
           ErrShortcuts (py "common/po/fr.po") missing (py "mainwindow")
             source translation ∈ report)
      ∧ ¬ (∃ missing source translation,
             ErrShortcuts (py "common/po/fr.po") missing (py "manageprofile")
               source translation ∈ report).
Proof.
  assert (NoDup (dict_keys shortcut_groups)) as Hnd.
  { apply (bool_decide_unpack _). vm_compute. exact I. }
  split; [exact Hnd|].
  destruct (shortcut_finding_iff_repeated_letter ascii_word shortcut_groups
              (py "common/po/fr.po") sample_fr_po Hnd)
    as (report & Hreport & Hiff).
  exists report. split; [exact Hreport|]. split.
  - apply (Hiff (py "mainwindow")
             [py "Back In &Time"; py "&Backup"; py "&Restore"; py "&Help"]).
    { by left. }
    exists 0%nat, 2%nat, 83.
    split; [done|]. split.
    + exists (simple_entry (py "&Backup") (py "&Sauvegarder")).
      split; [done|]. split; [done|]. split.
      { exists 0%nat. split; [done|]. by exists 66. }
      split; [by apply (bool_decide_unpack _)|].
      exists 0%nat. repeat split; try done. lia.
    + exists (simple_entry (py "&Help") (py "&Support")).
      split; [done|]. split; [done|]. split.
      { exists 0%nat. split; [done|]. by exists 72. }
      split; [by apply (bool_decide_unpack _)|].
      exists 0%nat. repeat split; try done. lia.
  - intros Hfinding.
    apply (Hiff (py "manageprofile")
             [py "&General"; py "&Include"; py "&Exclude"; py "&Auto-remove";
              py "&Options"; py "Back In &Time"; py "E&xpert Options"])
      in Hfinding; [|by right; left].
    destruct Hfinding as (i & j & letter & Hij & Hi & Hj).
    assert (∀ k c, group_letter_at ascii_word
                     [py "&General"; py "&Include"; py "&Exclude";
                      py "&Auto-remove"; py "&Options"; py "Back In &Time";
                      py "E&xpert Options"] sample_fr_po k c → False)
      as Hnone; [|by eapply Hnone].
    intros k c (entry & Hk & _ & _ & Hin & (m & Hamp & _)).
    destruct k as [|[|[|[|[|k]]]]]; simplify_eq/=;
      try (apply (bool_decide_pack _) in Hin; vm_compute in Hin; done).
    by destruct m as [|[|[|[|[|[|[|m]]]]]]].
Defined.
